(** * Resume ATS score analyser: keyword matcher, optimizer and exporter

    A shallow embedding of the helper functions of [resume/app.py]
    ([extract_text_from_pdf], [extract_text_from_docx], [parse_resume],
    [compare_with_job_description], [optimize_resume],
    [create_optimized_docx]) and the properties the specification states
    about them.

    Modelling conventions.
    - A Python [str] is a [string]; a character [ascii] stands for the code
      point of the same number, so the model covers text over U+0000..U+00FF.
      On that range [str.lower], the class [\w] of [re] and [str.isspace]
      act character by character; the three tables below are those of
      CPython 3 restricted to the range.
    - A Python [set] of strings is a [gset string].  [list(a_set)] lists the
      elements in an order the language leaves open: it is a parameter
      [set_to_list] of the comparison, constrained only to enumerate the set.
    - The score is a Python [float] computed as [(m / n) * 100] from two
      lengths.  It is modelled by the exact rational the expression denotes,
      a [Q]; the two binary64 roundings are not modelled.  Every finite float
      is a rational, and [format(x, '.1f')] rounds the exact value of [x]
      half-to-even, which is what [format_1f] does on [Q].
    - PyPDF2 and python-docx are outside the repository.  Reading a document
      is a parameter returning the parts of the document or an exception;
      a document under construction is the sequence of blocks added to it,
      and its serialisation to bytes is a parameter. *)

From Stdlib Require Import QArith Qround Qabs Lqa.
From Stdlib Require Import Ascii String DecimalString.
From stdpp Require Import gmap strings list.

Local Open Scope stdpp_scope.

(** ** Characters *)

Module Char.

Definition code (c : ascii) : N := N_of_ascii c.

Definition between (lo hi : N) (c : ascii) : bool :=
  ((lo <=? code c) && (code c <=? hi))%N.

Definition has_code (n : N) (c : ascii) : bool := (code c =? n)%N.

(** [\w] of [re] on a [str] pattern: alphanumeric code points and [_]. *)
Definition is_word (c : ascii) : bool :=
  between 48 57 c || between 65 90 c || has_code 95 c || between 97 122 c
  || has_code 170 c || between 178 179 c || has_code 181 c || between 185 186 c
  || between 188 190 c || between 192 214 c || between 216 246 c
  || between 248 255 c.

(** One character of [str.lower]. *)
Definition lower (c : ascii) : ascii :=
  if between 65 90 c || between 192 214 c || between 216 222 c
  then ascii_of_N (code c + 32)
  else c.

(** [str.isspace] on one character; what [str.strip] removes. *)
Definition is_space (c : ascii) : bool :=
  between 9 13 c || between 28 32 c || has_code 133 c || has_code 160 c.

Definition newline : ascii := ascii_of_N 10.

End Char.

(** ** Strings *)

Definition nl : string := String Char.newline "".

(** [s.lower()] *)
Fixpoint str_lower (s : string) : string :=
  match s with
  | "" => ""
  | String c s' => String (Char.lower c) (str_lower s')
  end.

(** [s.split(sep)] for a separator of one character: never empty. *)
Fixpoint str_split (sep : ascii) (s : string) : list string :=
  match s with
  | "" => [""]
  | String c s' =>
      if decide (c = sep) then "" :: str_split sep s'
      else match str_split sep s' with
           | l :: ls => String c l :: ls
           | [] => [String c ""]
           end
  end.

Fixpoint str_lstrip (s : string) : string :=
  match s with
  | "" => ""
  | String c s' => if Char.is_space c then str_lstrip s' else s
  end.

Fixpoint str_rstrip (s : string) : string :=
  match s with
  | "" => ""
  | String c s' =>
      match str_rstrip s' with
      | "" => if Char.is_space c then "" else String c ""
      | r => String c r
      end
  end.

(** [s.strip()] *)
Definition str_strip (s : string) : string := str_rstrip (str_lstrip s).

(** [sep.join(l)] *)
Definition str_join (sep : string) (l : list string) : string :=
  String.concat sep l.

(** Truth value of a [str]: non-empty. *)
Definition str_truthy (s : string) : bool :=
  match s with "" => false | _ => true end.

Fixpoint str_all (p : ascii → bool) (s : string) : bool :=
  match s with
  | "" => true
  | String c s' => p c && str_all p s'
  end.

(** ** The regular expression engine

    The fragment of [re] that the pattern [\b\w+\b] needs, with the
    backtracking order of the engine: [run r c] lists the cursors at which a
    match of [r] started at [c] can end, most preferred first. *)

Module Re.

Inductive regex : Type :=
| WordBoundary               (* \b *)
| WordChar                   (* \w *)
| OneOrMore (r : regex)      (* r+, greedy *)
| Concat (r1 r2 : regex).

(** A position in the subject: the character before it, if any, and the
    text from it on. *)
Record cursor : Type := Cursor { before : option ascii; ahead : string }.

Definition word_before (c : cursor) : bool :=
  match before c with Some a => Char.is_word a | None => false end.

Definition word_ahead (c : cursor) : bool :=
  match ahead c with String a _ => Char.is_word a | "" => false end.

(** [\b]: exactly one side of the position is a word character. *)
Definition at_boundary (c : cursor) : bool :=
  xorb (word_before c) (word_ahead c).

(** Greedy repetition, one or more times: after each round of [step] the
    engine first tries one more round, then falls back to stopping.  A
    round is tried while input is left to pay for it. *)
Fixpoint repeat_loop (step : cursor → list cursor) (fuel : nat) (c : cursor)
    : list cursor :=
  match fuel with
  | 0 => []
  | S fuel' => c' ← step c; repeat_loop step fuel' c' ++ [c']
  end.

Fixpoint run (r : regex) (c : cursor) : list cursor :=
  match r with
  | WordBoundary => if at_boundary c then [c] else []
  | WordChar =>
      match ahead c with
      | String a s' => if Char.is_word a then [Cursor (Some a) s'] else []
      | "" => []
      end
  | Concat r1 r2 => c' ← run r1 c; run r2 c'
  | OneOrMore r1 => repeat_loop (run r1) (S (String.length (ahead c))) c
  end.

(** The match the engine reports at a position: the first alternative. *)
Definition match_at (r : regex) (c : cursor) : option cursor :=
  head (run r c).

(** Text between a cursor and a later one. *)
Definition matched (c c' : cursor) : string :=
  String.substring 0 (String.length (ahead c) - String.length (ahead c'))
    (ahead c).

(** [findall]: leftmost matches, each search resuming where the last match
    ended; where nothing matches the position advances by one character.
    A match of [\b\w+\b] is never empty ([word_pattern_progress] below), so
    the branch for an empty match, which moves on by one character, is
    never taken by the comparator. *)
Fixpoint findall_from (fuel : nat) (r : regex) (c : cursor) : list string :=
  match fuel with
  | 0 => []
  | S fuel' =>
      let advance :=
        match ahead c with
        | String a s' => findall_from fuel' r (Cursor (Some a) s')
        | "" => []
        end in
      match match_at r c with
      | Some c' =>
          matched c c' ::
            (if decide (String.length (ahead c') < String.length (ahead c))
             then findall_from fuel' r c' else advance)
      | None => advance
      end
  end.

Definition findall (r : regex) (s : string) : list string :=
  findall_from (S (String.length s)) r (Cursor None s).

(** [r'\b\w+\b'] *)
Definition word_pattern : regex :=
  Concat WordBoundary (Concat (OneOrMore WordChar) WordBoundary).

End Re.

(** ** Keyword comparator *)

(** The dictionary [{'score': ..., 'missing_keywords': ...}]. *)
Record Analysis : Type := { score : Q; missing_keywords : list string }.

(** [set(re.findall(r'\b\w+\b', text.lower()))] *)
Definition word_set (text : string) : gset string :=
  list_to_set (Re.findall Re.word_pattern (str_lower text)).

Section Compare.

(** [list(s)] for a set [s]. *)
Variable set_to_list : gset string → list string.

Definition compare_with_job_description
    (resume_text job_description : string) : Analysis :=
  let resume_words := word_set resume_text in
  let job_words := word_set job_description in
  let important_words := job_words ∖ resume_words in
  let score :=
    if decide (0 < size job_words) then
      let match_words := job_words ∩ resume_words in
      (inject_Z (Z.of_nat (size match_words))
         / inject_Z (Z.of_nat (size job_words)) * 100)%Q
    else 0%Q in
  {| score := score; missing_keywords := set_to_list important_words |}.

End Compare.

(** ** Optimizer *)

(** Nearest integer, ties to the even one. *)
Definition round_half_even (x : Q) : Z :=
  let f := Qfloor x in
  match (x - inject_Z f ?= 1 # 2)%Q with
  | Lt => f
  | Gt => (f + 1)%Z
  | Eq => if Z.even f then f else (f + 1)%Z
  end.

Definition decimal (n : Z) : string :=
  NilZero.string_of_uint (N.to_uint (Z.to_N n)).

(** [f"{x:.1f}"] *)
Definition format_1f (x : Q) : string :=
  let tenths := round_half_even (Qabs x * 10) in
  (match (x ?= 0)%Q with Lt => "-" | _ => "" end)
    +:+ decimal (tenths / 10) +:+ "." +:+ decimal (tenths mod 10).

(** Truth value of a [list]: non-empty. *)
Definition list_truthy {A} (l : list A) : bool :=
  match l with [] => false | _ => true end.

Definition optimize_resume
    (resume_text job_description : string) (analysis : Analysis) : string :=
  let optimized := resume_text in
  if list_truthy (missing_keywords analysis) then
    let missing_keywords :=
      str_join ", " (take 10 (missing_keywords analysis)) in
    let suggestion := nl +:+ nl +:+ "--- OPTIMIZATION SUGGESTIONS ---" +:+ nl in
    let suggestion :=
      suggestion +:+ ("Consider adding these keywords: " +:+ missing_keywords +:+ nl) in
    let suggestion :=
      suggestion +:+ ("Your resume matches " +:+ format_1f (score analysis)
                        +:+ "% of job requirements." +:+ nl) in
    optimized +:+ suggestion
  else optimized.

(** ** Document exporter *)

Module Docx.

(** The body of a document: its blocks, in order. *)
Inductive block : Type :=
| Heading (text : string) (level : nat)
| Paragraph (text : string).

Definition document : Type := list block.

(** [Document()]: the blank document. *)
Definition Document : document := [].

Definition add_heading (text : string) (level : nat) (doc : document) : document :=
  doc ++ [Heading text level].

Definition add_paragraph (text : string) (doc : document) : document :=
  doc ++ [Paragraph text].

End Docx.

(** An in-memory byte stream: its content and the stream position. *)
Record BytesIO : Type := { getvalue : list Byte.byte; tell : nat }.

Definition BytesIO_new : BytesIO := {| getvalue := []; tell := 0 |}.

(** [b.write(data)]: at the stream position, which moves past the data. *)
Definition BytesIO_write (b : BytesIO) (data : list Byte.byte) : BytesIO :=
  {| getvalue := take (tell b) (getvalue b) ++ data
                   ++ drop (tell b + length data) (getvalue b);
     tell := tell b + length data |}.

Definition BytesIO_seek (b : BytesIO) (pos : nat) : BytesIO :=
  {| getvalue := getvalue b; tell := pos |}.

Section Exporter.

(** [doc.save(stream)]: the bytes python-docx writes for a document. *)
Variable docx_save : Docx.document → list Byte.byte.

(** The document [create_optimized_docx] builds before saving it. *)
Definition optimized_document (optimized_text : string) : Docx.document :=
  let doc := Docx.Document in
  let doc := Docx.add_heading "Optimized Resume" 0 doc in
  let paragraphs := str_split Char.newline optimized_text in
  fold_left
    (λ doc para,
       if str_truthy (str_strip para) then Docx.add_paragraph para doc
       else doc)
    paragraphs doc.

Definition create_optimized_docx
    (original_text optimized_text : string) : BytesIO :=
  let doc := optimized_document optimized_text in
  let buffer := BytesIO_new in
  let buffer := BytesIO_write buffer (docx_save doc) in
  BytesIO_seek buffer 0.

End Exporter.

(** ** Text extractor *)

Inductive exception : Type :=
| OSError                 (* the file cannot be opened *)
| PdfReadError            (* PyPDF2 cannot parse the stream *)
| PackageNotFoundError.   (* python-docx cannot open the package *)

Inductive result (A : Type) : Type :=
| Ok (a : A)
| Raise (e : exception).
Arguments Ok {A} a.
Arguments Raise {A} e.

Global Instance result_ret : MRet result := λ A a, Ok a.

Global Instance result_bind : MBind result := λ A B k m,
  match m with Ok a => k a | Raise e => Raise e end.

(** A page of a PDF: what [page.extract_text()] returns. *)
Record Page : Type := { extract_text : option string }.

Section Extraction.

Variable file : Type.

(** [open(path, 'rb')] *)
Variable open_rb : string → result file.
(** [PyPDF2.PdfReader(f).pages] *)
Variable PdfReader_pages : file → result (list Page).
(** The texts of [docx.Document(path).paragraphs] *)
Variable Document_paragraphs : string → result (list string).

Definition extract_text_from_pdf (pdf_file : file) : result string :=
  pages ← PdfReader_pages pdf_file;
  Ok (fold_left
        (λ text page,
           text +:+ match extract_text page with
                    | Some t => if str_truthy t then t else ""
                    | None => ""
                    end)
        pages "").

Definition extract_text_from_docx (docx_file : string) : result string :=
  paragraphs ← Document_paragraphs docx_file;
  Ok (fold_left (λ text para, text +:+ (para +:+ nl)) paragraphs "").

Definition parse_resume (file_path file_type : string) : result string :=
  if decide (file_type = "pdf") then
    f ← open_rb file_path; extract_text_from_pdf f
  else if decide (file_type = "docx") then
    extract_text_from_docx file_path
  else Ok "".

End Extraction.

(** ** Notions the specification uses *)

(** Whether the text [pre], read after a position whose last character was a
    word character iff [b], ends in a word character. *)
Fixpoint ends_in_word (b : bool) (pre : string) : bool :=
  match pre with
  | "" => b
  | String c pre' => ends_in_word (Char.is_word c) pre'
  end.

Definition starts_with_word (s : string) : bool :=
  match s with String c _ => Char.is_word c | "" => false end.

(** [w] is a maximal run of word characters of [s]: a non-empty block of
    word characters that no word character touches on either side. *)
Definition maximal_word_run (s w : string) : Prop :=
  w ≠ "" ∧ str_all Char.is_word w = true ∧
  ∃ pre post, s = pre +:+ w +:+ post
              ∧ ends_in_word false pre = false
              ∧ starts_with_word post = false.

(** The tokens of a text as the specification describes them. *)
Definition is_token (text w : string) : Prop :=
  maximal_word_run (str_lower text) w.

(** A line is blank when it holds nothing but whitespace. *)
Definition blank (line : string) : bool := str_all Char.is_space line.

(** No character of the line is a line break. *)
Definition one_line (line : string) : bool :=
  str_all (λ c, bool_decide (c ≠ Char.newline)) line.

(** The concatenation of a sequence of texts. *)
Definition str_concat (l : list string) : string := foldr String.append "" l.

(** The text a page contributes: none when [extract_text] has no result. *)
Definition page_text (p : Page) : string :=
  match extract_text p with Some t => t | None => "" end.

(** The sign that [format_1f] prints. *)
Definition sign_of (x : Q) : string :=
  match (x ?= 0)%Q with Lt => "-" | _ => "" end.

(** The cursor at the end of the run of word characters that starts with
    the character [a], already read, and goes on into [s]. *)
Fixpoint run_end (a : ascii) (s : string) : Re.cursor :=
  match s with
  | String c s' => if Char.is_word c then run_end c s' else Re.Cursor (Some a) s
  | "" => Re.Cursor (Some a) ""
  end.

(** The longest prefix of word characters, and what follows it. *)
Fixpoint word_prefix (s : string) : string :=
  match s with
  | String c s' => if Char.is_word c then String c (word_prefix s') else ""
  | "" => ""
  end.

Fixpoint after_word (s : string) : string :=
  match s with
  | String c s' => if Char.is_word c then after_word s' else s
  | "" => ""
  end.

(** [w] is a maximal run of word characters of [s], where the character
    before [s] was a word character iff [b]. *)
Definition token_at (b : bool) (s w : string) : Prop :=
  w ≠ "" ∧ str_all Char.is_word w = true ∧
  ∃ pre post, s = pre +:+ w +:+ post
              ∧ ends_in_word b pre = false
              ∧ starts_with_word post = false.

(** The score as a function of the two word sets. *)
Definition score_of (job_words resume_words : gset string) : Q :=
  if decide (0 < size job_words) then
    (inject_Z (Z.of_nat (size (job_words ∩ resume_words)))
       / inject_Z (Z.of_nat (size job_words)) * 100)%Q
  else 0%Q.

(** The part of the suggestion block before the list of keywords, up to the
    colon, and the line after the list. *)
Definition block_head : string :=
  nl +:+ "--- OPTIMIZATION SUGGESTIONS ---" +:+ nl
     +:+ "Consider adding these keywords:".

Definition block_tail (x : Q) : string :=
  "Your resume matches " +:+ format_1f x +:+ "% of job requirements." +:+ nl.

(** The texts of the paragraphs of a document, headings left out. *)
Definition paragraph_texts (doc : Docx.document) : list string :=
  omap (λ b, match b with Docx.Paragraph t => Some t | Docx.Heading _ _ => None end)
    doc.

(** The paragraphs the exporter makes of a text. *)
Definition paragraphs_of (text : string) : list string :=
  filter (λ line, blank line = false) (str_split Char.newline text).

(** ** File names *)

(** [c in s] for a character [c]. *)
Fixpoint str_contains (c : ascii) (s : string) : bool :=
  match s with
  | "" => false
  | String a s' => bool_decide (a = c) || str_contains c s'
  end.

(** The text before and the text after the last [sep] of [s], if any. *)
Fixpoint rsplit_once (sep : ascii) (s : string) : option (string * string) :=
  match s with
  | "" => None
  | String c s' =>
      match rsplit_once sep s' with
      | Some (h, t) => Some (String c h, t)
      | None => if decide (c = sep) then Some ("", s') else None
      end
  end.

(** [s.rsplit(sep, 1)] for a separator of one character. *)
Definition str_rsplit1 (sep : ascii) (s : string) : list string :=
  match rsplit_once sep s with
  | Some (h, t) => [h; t]
  | None => [s]
  end.

Definition ALLOWED_EXTENSIONS : gset string := {["pdf"; "docx"]}.

(** [l[i]] raises [IndexError] past the end of [l]: the result is [None]
    then, as it is for every expression below that raises. *)
Definition allowed_file (filename : string) : option bool :=
  if str_contains "." filename then
    ext ← str_rsplit1 "." filename !! 1;
    Some (bool_decide (str_lower ext ∈ ALLOWED_EXTENSIONS))
  else Some false.

(** [filename.rsplit('.', 1)[1].lower()] of [upload_resume]. *)
Definition file_extension (filename : string) : option string :=
  ext ← str_rsplit1 "." filename !! 1; Some (str_lower ext).

(** [f"optimized_{filename.rsplit('.', 1)[0]}.docx"] of [download_resume]. *)
Definition download_name (filename : string) : option string :=
  stem ← str_rsplit1 "." filename !! 0;
  Some ("optimized_" +:+ stem +:+ ".docx").

(** ** Routes *)

(** A row of the table of resumes.  The text columns are nullable in the
    schema; the rows [upload_resume] writes, the only ones the application
    makes, hold strings. *)
Record Resume : Type := {
  resume_id : nat;
  filename : string;
  original_text : string;
  optimized_text : string;
  job_description : string;
  ats_score : Q;
  created_at : Z;
  user_id : nat;
  file_type : string
}.

(** What a view answers: [abort(404)], a redirect to an endpoint after an
    optional [flash(message, category)], a rendered template, a file sent as
    an attachment, or an uncaught exception. *)
Inductive response : Type :=
| NotFound
| RedirectTo (endpoint : string) (flashed : option (string * string))
| RenderTemplate (template : string) (resume : Resume)
| SendFile (buffer : BytesIO) (name mimetype : string)
| InternalServerError.

Definition docx_mimetype : string :=
  "application/vnd.openxmlformats-officedocument.wordprocessingml.document".

Section Routes.

(** [Resume.query.get(id)] on the current table. *)
Variable query_get : nat → option Resume.
(** [current_user.id]; [login_required] lets only a logged-in user in. *)
Variable current_user_id : nat.
Variable docx_save : Docx.document → list Byte.byte.
Variable set_to_list : gset string → list string.

Definition view_resume (id : nat) : response :=
  match query_get id with
  | None => NotFound
  | Some resume =>
      if decide (user_id resume ≠ current_user_id) then
        RedirectTo "dashboard" (Some ("Access denied", "danger"))
      else RenderTemplate "view_resume.html" resume
  end.

Definition download_resume (id : nat) : response :=
  match query_get id with
  | None => NotFound
  | Some resume =>
      if decide (user_id resume ≠ current_user_id) then
        RedirectTo "dashboard" (Some ("Access denied", "danger"))
      else
        let buffer :=
          create_optimized_docx docx_save
            (original_text resume) (optimized_text resume) in
        match download_name (filename resume) with
        | Some name => SendFile buffer name docx_mimetype
        | None => InternalServerError
        end
  end.

(** The analysis step of [upload_resume]: the optimized text and the score
    it stores for a resume text and the job description of the form. *)
Definition upload_analysis (resume_text job_description : string) : string * Q :=
  if str_truthy job_description then
    let analysis :=
      compare_with_job_description set_to_list resume_text job_description in
    let optimized_text := optimize_resume resume_text job_description analysis in
    let ats_score := score analysis in
    (optimized_text, ats_score)
  else
    let optimized_text := resume_text in
    let ats_score := 0%Q in
    (optimized_text, ats_score).

End Routes.

(** The example of the specification. *)
Definition example_resume : string := "Python developer with Flask experience".
Definition example_job : string := "Python Flask SQL developer".

(** * Properties *)

Example findall_example :
  Re.findall Re.word_pattern "ab_c  d9--e x" = ["ab_c"; "d9"; "e"; "x"].
Proof. vm_compute. reflexivity. Qed.

(** ** Strings *)

Local Arguments String.append !_ _ / : simpl nomatch.

Lemma append_nil_r (s : string) : s +:+ "" = s.
Proof. induction s; simpl; congruence. Qed.

Lemma append_assoc (s1 s2 s3 : string) : (s1 +:+ s2) +:+ s3 = s1 +:+ (s2 +:+ s3).
Proof. induction s1; simpl; congruence. Qed.

Lemma length_append (s1 s2 : string) :
  String.length (s1 +:+ s2) = String.length s1 + String.length s2.
Proof. induction s1; simpl; congruence. Qed.

Lemma substring_prefix (w r : string) :
  String.substring 0 (String.length (w +:+ r) - String.length r) (w +:+ r) = w.
Proof.
  rewrite length_append, Nat.add_sub.
  induction w as [|a w IH]; simpl.
  - destruct r; reflexivity.
  - by rewrite IH.
Qed.

Lemma word_prefix_split (s : string) : s = word_prefix s +:+ after_word s.
Proof.
  induction s as [|c s IH]; simpl; [done|].
  destruct (Char.is_word c); simpl; congruence.
Qed.

Lemma word_prefix_all (s : string) : str_all Char.is_word (word_prefix s) = true.
Proof.
  induction s as [|c s IH]; simpl; [done|].
  destruct (Char.is_word c) eqn:E; simpl; [by rewrite E|done].
Qed.

Lemma after_word_start (s : string) : starts_with_word (after_word s) = false.
Proof.
  induction s as [|c s IH]; simpl; [done|].
  destruct (Char.is_word c) eqn:E; simpl; done.
Qed.

(** A block of word characters that stops at a non-word character is the
    longest prefix. *)
Lemma word_prefix_unique (w post : string) :
  str_all Char.is_word w = true → starts_with_word post = false →
  word_prefix (w +:+ post) = w ∧ after_word (w +:+ post) = post.
Proof.
  intros Hw Hp. induction w as [|c w IH]; simpl in *.
  - destruct post as [|c p]; simpl in *; [done|]. by rewrite Hp.
  - apply andb_true_iff in Hw as [Hc Hw]. rewrite Hc.
    destruct (IH Hw) as [-> ->]. done.
Qed.

Lemma ends_in_word_app (b : bool) (p q : string) :
  ends_in_word b (p +:+ q) = ends_in_word (ends_in_word b p) q.
Proof. revert b. induction p as [|c p IH]; intros b; simpl; [done|apply IH]. Qed.

Lemma ends_in_word_all (b : bool) (w : string) :
  w ≠ "" → str_all Char.is_word w = true → ends_in_word b w = true.
Proof.
  revert b. induction w as [|c w IH]; intros b Hne Hw; [done|].
  simpl in *. apply andb_true_iff in Hw as [Hc Hw]. rewrite Hc.
  destruct w as [|c' w']; [done|]. by apply IH.
Qed.

(** A prefix that ends in a non-word character reaches past the leading run
    of word characters. *)
Lemma prefix_past_run (pre x : string) (b : bool) :
  pre ≠ "" → ends_in_word b pre = false →
  ∃ pre', pre = word_prefix (pre +:+ x) +:+ pre' ∧ pre' ≠ ""
          ∧ after_word (pre +:+ x) = pre' +:+ x
          ∧ ends_in_word true pre' = false.
Proof.
  revert b. induction pre as [|c pre IH]; intros b Hne He; [done|].
  simpl in *. destruct (Char.is_word c) eqn:Hc.
  - destruct pre as [|c' pre']; [simpl in He; congruence|].
    destruct (IH true) as (p' & E1 & E2 & E3 & E4); [done|done|].
    exists p'. split; [|done]. simpl. f_equal. exact E1.
  - exists (String c pre). simpl. by rewrite Hc.
Qed.

(** ** The regular expression [\b\w+\b] *)

Lemma run_end_ahead (a : ascii) (s : string) :
  Re.ahead (run_end a s) = after_word s.
Proof.
  revert a. induction s as [|c s IH]; intros a; simpl; [done|].
  destruct (Char.is_word c); [apply IH|done].
Qed.

Lemma run_end_before (a : ascii) (s : string) :
  Char.is_word a = true → Re.word_before (run_end a s) = true.
Proof.
  revert a. induction s as [|c s IH]; intros a Ha; simpl; [done|].
  destruct (Char.is_word c) eqn:Hc; [by apply IH|done].
Qed.

(** The greedy loop backtracks to exactly one end: the end of the run. *)
Lemma word_run_then_boundary (s : string) (b : option ascii) (fuel : nat) :
  String.length s < fuel →
  Re.repeat_loop (Re.run Re.WordChar) fuel (Re.Cursor b s)
    ≫= Re.run Re.WordBoundary
  = match s with
    | String a s' => if Char.is_word a then [run_end a s'] else []
    | "" => []
    end.
Proof.
  revert b fuel. induction s as [|a s IH]; intros b fuel Hf.
  - destruct fuel; [lia|]. done.
  - destruct fuel as [|fuel]; [lia|]. simpl in Hf.
    cbn [Re.repeat_loop Re.run Re.ahead].
    destruct (Char.is_word a) eqn:Ha; [|done].
    cbn [mbind list_bind]. rewrite app_nil_r, bind_app.
    rewrite IH by lia.
    cbn [mbind list_bind Re.run]. rewrite app_nil_r.
    unfold Re.at_boundary, Re.word_before, Re.word_ahead. cbn [Re.before Re.ahead].
    rewrite Ha. destruct s as [|c s']; [done|]. simpl.
    destruct (Char.is_word c); done.
Qed.

Lemma run_word_pattern (b : option ascii) (s : string) :
  Re.run Re.word_pattern (Re.Cursor b s)
  = if Re.word_before (Re.Cursor b s) then []
    else match s with
         | String a s' => if Char.is_word a then [run_end a s'] else []
         | "" => []
         end.
Proof.
  unfold Re.word_pattern.
  cbn [Re.run]. unfold Re.at_boundary.
  destruct (Re.word_before (Re.Cursor b s)) eqn:Hb;
    destruct (Re.word_ahead (Re.Cursor b s)) eqn:Ha; cbn [xorb mbind list_bind];
    rewrite ?app_nil_r; try done.
  - cbn [Re.ahead]. rewrite word_run_then_boundary by lia.
    unfold Re.word_ahead in Ha. cbn [Re.ahead] in Ha.
    destruct s as [|a s']; [done|]. by rewrite Ha.
  - cbn [Re.ahead]. rewrite word_run_then_boundary by lia. done.
  - unfold Re.word_ahead in Ha. cbn [Re.ahead] in Ha.
    destruct s as [|a s']; [done|]. by rewrite Ha.
Qed.

Lemma after_word_length (s : string) :
  String.length (after_word s) ≤ String.length s.
Proof.
  induction s as [|c s IH]; simpl; [done|].
  destruct (Char.is_word c); simpl; lia.
Qed.

(** A match of the pattern consumes at least one character. *)
Lemma word_pattern_progress (c c' : Re.cursor) :
  Re.match_at Re.word_pattern c = Some c' →
  String.length (Re.ahead c') < String.length (Re.ahead c).
Proof.
  destruct c as [b s]. unfold Re.match_at. rewrite run_word_pattern.
  destruct (Re.word_before (Re.Cursor b s)); [done|].
  destruct s as [|a s]; [done|]. destruct (Char.is_word a); [|done].
  intros [= <-]. rewrite run_end_ahead. cbn [Re.ahead String.length].
  pose proof (after_word_length s). lia.
Qed.

(** Where no run can start, the tokens are those of the rest. *)
Lemma token_at_skip (b : bool) (a : ascii) (s w : string) :
  b = true ∨ Char.is_word a = false →
  token_at b (String a s) w ↔ token_at (Char.is_word a) s w.
Proof.
  intros Hb. split; intros (Hne & Hw & pre & post & Hs & Hpre & Hpost).
  - destruct pre as [|c pre]; simpl in *.
    + destruct Hb as [->| Ha]; [done|].
      destruct w as [|c w]; [done|]. simpl in *.
      injection Hs as -> _. rewrite Ha in Hw. done.
    + injection Hs as -> ->.
      split; [done|]. split; [done|]. by exists pre, post.
  - split; [done|]. split; [done|].
    exists (String a pre), post. simpl. by rewrite Hs.
Qed.

(** Where a run starts, it is a token, and the others lie past it. *)
Lemma token_at_run (a : ascii) (s w : string) :
  Char.is_word a = true →
  token_at false (String a s) w
  ↔ w = word_prefix (String a s) ∨ token_at true (after_word (String a s)) w.
Proof.
  intros Ha. set (t := String a s).
  assert (Hwp : word_prefix t ≠ "") by (simpl; by rewrite Ha).
  split.
  - intros (Hne & Hw & pre & post & Hs & Hpre & Hpost).
    destruct pre as [|c pre].
    + left. simpl in Hs. rewrite Hs.
      symmetry. by apply word_prefix_unique.
    + right. split; [done|]. split; [done|].
      destruct (prefix_past_run (String c pre) (w +:+ post) false)
        as (pre' & _ & _ & E & Hp'); [done|done|].
      exists pre', post. rewrite <- Hs in E. done.
  - intros [-> | (Hne & Hw & pre & post & Hs & Hpre & Hpost)].
    + split; [done|]. split; [apply word_prefix_all|].
      exists "", (after_word t).
      split; [exact (word_prefix_split t)|]. split; [done|apply after_word_start].
    + split; [done|]. split; [done|].
      exists (word_prefix t +:+ pre), post.
      rewrite append_assoc, <- Hs. split; [apply word_prefix_split|].
      split; [|done].
      rewrite ends_in_word_app, (ends_in_word_all false (word_prefix t));
        [done|done|apply word_prefix_all].
Qed.

Lemma token_at_empty (b : bool) (w : string) : ¬ token_at b "" w.
Proof.
  intros (Hne & _ & pre & post & Hs & _).
  destruct pre; [|done]. destruct w; done.
Qed.

(** The search reports exactly the maximal runs of word characters. *)
Lemma findall_from_tokens (fuel : nat) (s : string) (b : option ascii) (w : string) :
  String.length s < fuel →
  w ∈ Re.findall_from fuel Re.word_pattern (Re.Cursor b s)
  ↔ token_at (Re.word_before (Re.Cursor b s)) s w.
Proof.
  revert s b. induction fuel as [|fuel IH]; intros s b Hf; [lia|].
  cbn [Re.findall_from]. unfold Re.match_at. rewrite run_word_pattern.
  cbn [Re.ahead].
  assert (Hadv : ∀ a s', s = String a s' →
            Re.word_before (Re.Cursor b s) = true ∨ Char.is_word a = false →
            w ∈ Re.findall_from fuel Re.word_pattern (Re.Cursor (Some a) s')
            ↔ token_at (Re.word_before (Re.Cursor b s)) s w).
  { intros a s' -> Hb. rewrite IH by (simpl in Hf; lia).
    rewrite token_at_skip by done. done. }
  destruct (Re.word_before (Re.Cursor b s)) eqn:Hb.
  - cbn [head]. destruct s as [|a s'].
    + split; [by intros ?%elem_of_nil|by intros ?%token_at_empty].
    + apply Hadv; auto.
  - destruct s as [|a s'].
    + cbn [head]. split; [by intros ?%elem_of_nil|by intros ?%token_at_empty].
    + destruct (Char.is_word a) eqn:Ha; cbn [head]; [|apply Hadv; auto].
      rewrite token_at_run by done.
      assert (Hah : Re.ahead (run_end a s') = after_word (String a s')).
      { rewrite run_end_ahead. simpl. by rewrite Ha. }
      pose proof (after_word_length s') as Hlen.
      rewrite decide_True by (rewrite run_end_ahead; simpl; lia).
      rewrite elem_of_cons.
      assert (Hm : Re.matched (Re.Cursor b (String a s')) (run_end a s')
                   = word_prefix (String a s')).
      { unfold Re.matched. cbn [Re.ahead]. rewrite Hah.
        rewrite (word_prefix_split (String a s')) at 1 3.
        apply substring_prefix. }
      rewrite Hm.
      pose proof (run_end_before a s' Ha) as Hbe.
      destruct (run_end a s') as [b' r] eqn:Hre. cbn [Re.ahead] in Hah.
      rewrite IH by (rewrite Hah; simpl; rewrite Ha; simpl in Hf; lia).
      rewrite Hbe, Hah. done.
Qed.

Lemma findall_tokens (s w : string) :
  w ∈ Re.findall Re.word_pattern s ↔ maximal_word_run s w.
Proof. unfold Re.findall. rewrite findall_from_tokens by lia. done. Qed.

Lemma elem_of_word_set (text w : string) :
  w ∈ word_set text ↔ is_token text w.
Proof. unfold word_set. rewrite elem_of_list_to_set. apply findall_tokens. Qed.

(** ** Arithmetic of the score *)

Lemma ratio_bounds (m n : nat) :
  0 < n → m ≤ n →
  (0 <= inject_Z (Z.of_nat m) / inject_Z (Z.of_nat n) * 100 <= 100)%Q.
Proof.
  intros Hn Hm.
  destruct n as [|n]; [lia|].
  unfold Qle, Qdiv, Qmult, Qinv, inject_Z. simpl. split; nia.
Qed.

Lemma ratio_formula (m n : nat) :
  0 < n →
  (inject_Z (Z.of_nat m) / inject_Z (Z.of_nat n) * 100
   == 100 * inject_Z (Z.of_nat m) / inject_Z (Z.of_nat n))%Q.
Proof.
  intros Hn. field. intros H. unfold Qeq, inject_Z in H. simpl in H. lia.
Qed.

Lemma ratio_full (n : nat) :
  0 < n → (inject_Z (Z.of_nat n) / inject_Z (Z.of_nat n) * 100 == 100)%Q.
Proof.
  intros Hn. field. intros H. unfold Qeq, inject_Z in H. simpl in H. lia.
Qed.

(** ** Lower case *)

Lemma lower_idempotent (c : ascii) : Char.lower (Char.lower c) = Char.lower c.
Proof.
  destruct c as [b0 b1 b2 b3 b4 b5 b6 b7].
  destruct b0, b1, b2, b3, b4, b5, b6, b7; vm_compute; reflexivity.
Qed.

Lemma str_all_app (p : ascii → bool) (s t : string) :
  str_all p (s +:+ t) = str_all p s && str_all p t.
Proof.
  induction s as [|c s IH]; simpl; [done|]. by rewrite IH, andb_assoc.
Qed.

Lemma str_lower_fixed (s : string) :
  str_all (λ c, Ascii.eqb (Char.lower c) c) (str_lower s) = true.
Proof.
  induction s as [|c s IH]; simpl; [done|].
  rewrite lower_idempotent, Ascii.eqb_refl. done.
Qed.

Lemma str_lower_id (s : string) :
  str_all (λ c, Ascii.eqb (Char.lower c) c) s = true → str_lower s = s.
Proof.
  induction s as [|c s IH]; simpl; [done|].
  intros [Hc Hs]%andb_true_iff. apply Ascii.eqb_eq in Hc.
  by rewrite Hc, IH.
Qed.

(** Tokens are in lower case. *)
Lemma token_lower (text w : string) : is_token text w → str_lower w = w.
Proof.
  intros (_ & _ & pre & post & Hs & _).
  pose proof (str_lower_fixed text) as H.
  rewrite Hs, !str_all_app in H.
  apply andb_true_iff in H as [_ H]. apply andb_true_iff in H as [H _].
  by apply str_lower_id.
Qed.

(** ** Keyword comparator *)

Lemma word_set_size (text : string) :
  size (word_set text)
  = length (remove_dups (Re.findall Re.word_pattern (str_lower text))).
Proof.
  unfold word_set.
  rewrite <- (size_list_to_set (C := gset string) (remove_dups _))
    by apply NoDup_remove_dups.
  f_equal. apply set_eq. intros w.
  by rewrite !elem_of_list_to_set, elem_of_remove_dups.
Qed.


(** C2. The score lies in the closed interval [0, 100]. *)
Theorem score_in_range
    (set_to_list : gset string → list string)
    (resume_text job_description : string) :
  (0 <= score (compare_with_job_description set_to_list resume_text job_description)
   <= 100)%Q.
Proof.
  unfold compare_with_job_description. cbn [score].
  case_decide as Hn; [|done].
  apply ratio_bounds; [done|].
  apply subseteq_size, intersection_subseteq_l.
Qed.

Section CompareProperties.

Variable set_to_list : gset string → list string.

(** Whatever order [list(s)] takes, it lists the elements of [s], each
    once. *)
Hypothesis set_to_list_enumerates : ∀ X, set_to_list X ≡ₚ elements X.

Lemma set_to_list_empty : set_to_list ∅ = [].
Proof.
  apply Permutation_nil_r. rewrite set_to_list_enumerates.
  by rewrite elements_empty.
Qed.

(** C3. The missing keywords are the set difference jobWords − resumeWords
    listed without repetition: an element is a token of the job
    description and not one of the resume, every such token is listed, and
    each is in lower case. *)
Theorem missing_keywords_difference (resume_text job_description : string) :
  let missing :=
    missing_keywords
      (compare_with_job_description set_to_list resume_text job_description) in
  NoDup missing
  ∧ (∀ w, w ∈ missing
          ↔ is_token job_description w ∧ ¬ is_token resume_text w)
  ∧ (∀ w, w ∈ missing → str_lower w = w).
Proof.
  intros missing.
  assert (Hin : ∀ w, w ∈ missing
            ↔ is_token job_description w ∧ ¬ is_token resume_text w).
  { intros w. unfold missing, compare_with_job_description.
    cbn [missing_keywords].
    rewrite set_to_list_enumerates, elem_of_elements, elem_of_difference.
    by rewrite !elem_of_word_set. }
  split; [|split; [exact Hin|]].
  - unfold missing, compare_with_job_description. cbn [missing_keywords].
    rewrite set_to_list_enumerates. apply NoDup_elements.
  - intros w [Hw _]%Hin. by apply token_lower in Hw.
Qed.

(** C4. With an empty job description the score is 0 and no keyword is
    missing, and the optimizer then returns the resume text as it is. *)
Theorem empty_job_description (resume_text : string) :
  let result := compare_with_job_description set_to_list resume_text "" in
  score result = 0%Q
  ∧ missing_keywords result = []
  ∧ optimize_resume resume_text "" result = resume_text.
Proof.
  intros result.
  assert (Hm : missing_keywords result = []).
  { unfold result, compare_with_job_description. cbn [missing_keywords].
    replace (word_set "") with (∅ : gset string) by done.
    rewrite empty_difference_L. apply set_to_list_empty. }
  split; [done|]. split; [done|].
  unfold optimize_resume. by rewrite Hm.
Qed.

(** C7, as amended. When the job description has at least one token and
    every token of it is a token of the resume, the score is 100 and no
    keyword is missing. *)
Theorem all_tokens_present (resume_text job_description : string) :
  (∃ w, is_token job_description w) →
  (∀ w, is_token job_description w → is_token resume_text w) →
  let result :=
    compare_with_job_description set_to_list resume_text job_description in
  (score result == 100)%Q ∧ missing_keywords result = [].
Proof.
  intros [w0 Hw0] Hsub result.
  assert (Hincl : word_set job_description ⊆ word_set resume_text).
  { intros w. rewrite !elem_of_word_set. apply Hsub. }
  unfold result, compare_with_job_description. cbn [score missing_keywords].
  split.
  - rewrite subseteq_intersection_1_L by done.
    assert (0 < size (word_set job_description)).
    { apply elem_of_word_set in Hw0.
      destruct (size (word_set job_description)) eqn:E; [|lia].
      apply size_empty_iff in E. rewrite E in Hw0.
      by apply not_elem_of_empty in Hw0. }
    rewrite decide_True by done. by apply ratio_full.
  - rewrite subseteq_empty_difference_L by done.
    apply set_to_list_empty.
Qed.

End CompareProperties.

(** ** Optimizer *)

Lemma round_half_even_near (x : Q) :
  (Qabs (x - inject_Z (round_half_even x)) <= 1 # 2)%Q.
Proof.
  unfold round_half_even.
  pose proof (Qfloor_le x) as Hlo. pose proof (Qlt_floor x) as Hhi.
  rewrite inject_Z_plus in Hhi. change (inject_Z 1) with 1%Q in Hhi.
  set (f := Qfloor x) in *.
  apply Qabs_Qle_condition.
  destruct (x - inject_Z f ?= 1 # 2)%Q eqn:E.
  - apply Qeq_alt in E.
    destruct (Z.even f); rewrite ?inject_Z_plus;
      change (inject_Z 1) with 1%Q; split; lra.
  - apply Qlt_alt in E. split; lra.
  - apply Qgt_alt in E. rewrite inject_Z_plus.
    change (inject_Z 1) with 1%Q. split; lra.
Qed.

Lemma round_half_even_nonneg (x : Q) : (0 <= x)%Q → (0 ≤ round_half_even x)%Z.
Proof.
  intros Hx. unfold round_half_even.
  assert (0 ≤ Qfloor x)%Z.
  { change 0%Z with (Qfloor 0). by apply Qfloor_resp_le. }
  destruct (x - inject_Z (Qfloor x) ?= 1 # 2)%Q; [destruct (Z.even _)|..]; lia.
Qed.

Lemma decimal_digit (n : Z) :
  (0 ≤ n < 10)%Z → String.length (decimal n) = 1.
Proof.
  intros Hn.
  assert (n = 0 ∨ n = 1 ∨ n = 2 ∨ n = 3 ∨ n = 4 ∨ n = 5 ∨ n = 6 ∨ n = 7
          ∨ n = 8 ∨ n = 9)%Z as H by lia.
  repeat destruct H as [->|H]; try subst n; reflexivity.
Qed.

(** [format_1f] prints the nearest number of tenths, as an integer part, a
    point and one digit. *)
Lemma format_1f_nearest (x : Q) :
  ∃ tenths : Z,
    format_1f x
    = sign_of x +:+ decimal (tenths / 10) +:+ "." +:+ decimal (tenths mod 10)
    ∧ (0 ≤ tenths)%Z
    ∧ (Qabs (Qabs x * 10 - inject_Z tenths) <= 1 # 2)%Q
    ∧ String.length (decimal (tenths mod 10)) = 1.
Proof.
  exists (round_half_even (Qabs x * 10)).
  split; [done|]. split.
  { apply round_half_even_nonneg.
    apply Qmult_le_0_compat; [apply Qabs_nonneg|done]. }
  split; [apply round_half_even_near|].
  apply decimal_digit. apply Z.mod_pos_bound. lia.
Qed.


(** ** Document exporter *)

Lemma str_rstrip_nonempty (c : ascii) (s : string) :
  Char.is_space c = false → str_rstrip (String c s) ≠ "".
Proof.
  intros Hc. simpl. destruct (str_rstrip s); [by rewrite Hc|done].
Qed.

(** A line survives [strip] exactly when it is not blank. *)
Lemma strip_truthy (line : string) :
  str_truthy (str_strip line) = negb (blank line).
Proof.
  unfold str_strip, blank.
  induction line as [|c line IH]; [done|].
  cbn [str_lstrip str_all]. destruct (Char.is_space c) eqn:Hc; [exact IH|].
  pose proof (str_rstrip_nonempty c line Hc).
  destruct (str_rstrip (String c line)); done.
Qed.

Lemma str_split_nonempty (sep : ascii) (s : string) : str_split sep s ≠ [].
Proof.
  induction s as [|c s IH]; simpl; [done|].
  case_decide; [done|]. destruct (str_split sep s); done.
Qed.

Lemma concat_cons_char (sep : string) (c : ascii) (l : string) (ls : list string) :
  String.concat sep (String c l :: ls) = String c (String.concat sep (l :: ls)).
Proof. destruct ls; reflexivity. Qed.

(** Joining the pieces with the separator restores the text. *)
Lemma str_join_split (s : string) : str_join nl (str_split Char.newline s) = s.
Proof.
  unfold str_join. induction s as [|c s IH]; [done|].
  cbn [str_split]. pose proof (str_split_nonempty Char.newline s) as Hne.
  destruct (str_split Char.newline s) as [|l ls]; [done|].
  case_decide as Hc.
  - subst c. change (String.concat nl ("" :: l :: ls))
      with ("" +:+ nl +:+ String.concat nl (l :: ls)).
    rewrite IH. done.
  - rewrite concat_cons_char, IH. done.
Qed.

(** No piece holds the separator. *)
Lemma str_split_one_line (s : string) :
  Forall (λ line, one_line line = true) (str_split Char.newline s).
Proof.
  induction s as [|c s IH]; [by repeat constructor|].
  cbn [str_split]. case_decide as Hc; [by constructor|].
  pose proof (str_split_nonempty Char.newline s) as Hne.
  destruct (str_split Char.newline s) as [|l ls]; [done|].
  inversion IH as [|? ? Hl Hls]; subst. constructor; [|done].
  unfold one_line in *. cbn [str_all]. rewrite Hl.
  by rewrite bool_decide_true.
Qed.

Lemma add_paragraphs (keep : string → bool) (ls : list string) (doc : Docx.document) :
  fold_left
    (λ doc para, if keep para then Docx.add_paragraph para doc else doc) ls doc
  = doc ++ (Docx.Paragraph <$> filter (λ l, keep l = true) ls).
Proof.
  revert doc. induction ls as [|l ls IH]; intros doc; simpl.
  - by rewrite app_nil_r.
  - rewrite IH. destruct (keep l) eqn:Hk.
    + rewrite filter_cons_True by done. unfold Docx.add_paragraph.
      by rewrite <- app_assoc.
    + rewrite filter_cons_False by congruence. done.
Qed.



(** ** Text extractor *)

Lemma fold_append {A} (g : A → string) (l : list A) (acc : string) :
  fold_left (λ text x, text +:+ g x) l acc = acc +:+ str_concat (g <$> l).
Proof.
  revert acc. induction l as [|x l IH]; intros acc; simpl.
  - by rewrite append_nil_r.
  - rewrite IH. unfold str_concat. by rewrite append_assoc.
Qed.

(** C8. The text of a pdf is the concatenation of the texts of its pages in
    order, a page without text counting for the empty string; the text of a
    docx is the concatenation of its paragraphs in order, each followed by a
    line break.  Only reading the document can raise. *)
Theorem extract_text_concatenates
    (file : Type)
    (PdfReader_pages : file → result (list Page))
    (Document_paragraphs : string → result (list string))
    (pdf_file : file) (docx_file : string) :
  extract_text_from_pdf file PdfReader_pages pdf_file
  = (pages ← PdfReader_pages pdf_file; Ok (str_concat (page_text <$> pages)))
  ∧ extract_text_from_docx Document_paragraphs docx_file
    = (paragraphs ← Document_paragraphs docx_file;
       Ok (str_concat ((λ para, para +:+ nl) <$> paragraphs))).
Proof.
  unfold extract_text_from_pdf, extract_text_from_docx. split.
  - destruct (PdfReader_pages pdf_file) as [pages|e]; [|done].
    cbn [mbind result_bind]. f_equal.
    rewrite (fold_append (λ page,
               match extract_text page with
               | Some t => if str_truthy t then t else ""
               | None => ""
               end)).
    cbn [String.append]. f_equal. apply list_fmap_ext. intros _ page _.
    unfold page_text. destruct (extract_text page) as [[|c t]|]; done.
  - destruct (Document_paragraphs docx_file) as [paragraphs|e]; [|done].
    cbn [mbind result_bind]. f_equal.
    by rewrite (fold_append (λ para, para +:+ nl)).
Qed.

(** C10. For a file type other than 'pdf' and 'docx', [parse_resume]
    returns the empty string: nothing is read and nothing is raised. *)
Theorem parse_resume_other_type
    (file : Type)
    (open_rb : string → result file)
    (PdfReader_pages : file → result (list Page))
    (Document_paragraphs : string → result (list string))
    (file_path file_type : string) :
  file_type ≠ "pdf" → file_type ≠ "docx" →
  parse_resume file open_rb PdfReader_pages Document_paragraphs
    file_path file_type = Ok "".
Proof.
  intros Hpdf Hdocx. unfold parse_resume.
  by rewrite !decide_False by done.
Qed.

(** ** The example of the specification, and instances *)

Lemma elements_enumerates (X : gset string) : elements X ≡ₚ elements X.
Proof. reflexivity. Defined.

Example compare_example :
  (score (compare_with_job_description elements example_resume example_job)
   == 75)%Q
  ∧ missing_keywords
      (compare_with_job_description elements example_resume example_job)
    = ["sql"].
Proof. split; vm_compute; reflexivity. Qed.

Example optimize_example :
  optimize_resume example_resume example_job
    (compare_with_job_description elements example_resume example_job)
  = example_resume
      +:+ nl +:+ nl +:+ "--- OPTIMIZATION SUGGESTIONS ---" +:+ nl
      +:+ "Consider adding these keywords: sql" +:+ nl
      +:+ "Your resume matches 75.0% of job requirements." +:+ nl.
Proof. vm_compute. reflexivity. Qed.


Lemma missing_keywords_difference_witness :
  NoDup (missing_keywords
           (compare_with_job_description elements example_resume example_job))
  ∧ "sql" ∈ missing_keywords
              (compare_with_job_description elements example_resume example_job).
Proof.
  destruct (missing_keywords_difference elements elements_enumerates
              example_resume example_job) as (Hnd & _ & _).
  split; [exact Hnd|].
  apply (bool_decide_unpack _); vm_compute; exact I.
Defined.

Lemma empty_job_description_witness :
  score (compare_with_job_description elements example_resume "") = 0%Q
  ∧ missing_keywords (compare_with_job_description elements example_resume "")
    = []
  ∧ optimize_resume example_resume ""
      (compare_with_job_description elements example_resume "")
    = example_resume.
Proof.
  exact (empty_job_description elements elements_enumerates example_resume).
Defined.

(** C7 as stated fails: a job description without tokens has all its tokens
    in any resume, and its score is 0. *)
Lemma all_tokens_present_counterexample :
  ¬ ((∀ w, is_token "" w → is_token example_resume w) →
     (score (compare_with_job_description elements example_resume "") == 100)%Q
     ∧ missing_keywords (compare_with_job_description elements example_resume "")
       = []).
Proof.
  intros H. destruct H as [Hs _].
  - intros w Hw. by apply token_at_empty in Hw.
  - vm_compute in Hs. discriminate Hs.
Qed.

Lemma all_tokens_present_witness :
  (∃ w, is_token "python flask" w)
  ∧ (∀ w, is_token "python flask" w → is_token example_resume w)
  ∧ (score (compare_with_job_description elements example_resume "python flask")
     == 100)%Q
  ∧ missing_keywords
      (compare_with_job_description elements example_resume "python flask")
    = [].
Proof.
  assert (H1 : ∃ w, is_token "python flask" w).
  { exists "flask". apply elem_of_word_set.
    apply (bool_decide_unpack _); vm_compute; exact I. }
  assert (H2 : ∀ w, is_token "python flask" w → is_token example_resume w).
  { intros w. rewrite <- !elem_of_word_set. revert w.
    change (word_set "python flask" ⊆ word_set example_resume).
    apply (bool_decide_unpack _); vm_compute; exact I. }
  split; [exact H1|]. split; [exact H2|].
  exact (all_tokens_present elements elements_enumerates
           example_resume "python flask" H1 H2).
Defined.


Lemma parse_resume_other_type_witness :
  "txt" ≠ "pdf" ∧ "txt" ≠ "docx"
  ∧ parse_resume unit (λ _, Raise OSError) (λ _, Raise PdfReadError)
      (λ _, Raise PackageNotFoundError) "uploads/resume.txt" "txt"
    = Ok "".
Proof.
  split; [discriminate|]. split; [discriminate|].
  apply parse_resume_other_type; discriminate.
Defined.

(** * Further properties of the code *)

(** ** Tokens of a text made of two parts *)

Lemma is_word_lower (c : ascii) : Char.is_word (Char.lower c) = Char.is_word c.
Proof.
  destruct c as [b0 b1 b2 b3 b4 b5 b6 b7].
  destruct b0, b1, b2, b3, b4, b5, b6, b7; vm_compute; reflexivity.
Qed.

Lemma str_lower_app (s t : string) :
  str_lower (s +:+ t) = str_lower s +:+ str_lower t.
Proof. induction s as [|c s IH]; simpl; [done|]. by rewrite IH. Qed.

Lemma str_lower_idempotent (s : string) : str_lower (str_lower s) = str_lower s.
Proof. apply str_lower_id, str_lower_fixed. Qed.

(** Where two ways of cutting a text meet a given character. *)
Lemma append_eq_cut (x y a b : string) (c : ascii) :
  x +:+ y = a +:+ String c b →
  (∃ k, a = x +:+ k ∧ y = k +:+ String c b)
  ∨ (∃ k, x = a +:+ String c k ∧ b = k +:+ y).
Proof.
  revert a. induction x as [|d x IH]; intros a H; simpl in H.
  - left. exists a. done.
  - destruct a as [|e a]; simpl in H.
    + injection H as -> <-. right. exists x. done.
    + injection H as -> H. destruct (IH a H) as [(k & -> & ->)|(k & -> & ->)].
      * left. exists k. done.
      * right. exists k. done.
Qed.

Lemma starts_with_word_app (p q : string) :
  starts_with_word (p +:+ q)
  = match p with "" => starts_with_word q | _ => starts_with_word p end.
Proof. destruct p; reflexivity. Qed.

(** A run of word characters cannot hold a character that is not one. *)
Lemma maximal_runs_app_sep (a b w : string) (c : ascii) :
  Char.is_word c = false →
  maximal_word_run (a +:+ String c b) w
  ↔ maximal_word_run a w ∨ maximal_word_run b w.
Proof.
  intros Hc. split.
  - intros (Hne & Hw & pre & post & Hs & Hpre & Hpost).
    symmetry in Hs. apply append_eq_cut in Hs as [(k & -> & Hk)|(k & -> & ->)].
    + apply append_eq_cut in Hk as [(k' & -> & ->)|(k' & -> & _)].
      * left. split; [done|]. split; [done|]. exists pre, k'.
        split; [done|]. split; [done|].
        rewrite starts_with_word_app in Hpost. destruct k'; [done|exact Hpost].
      * rewrite str_all_app in Hw. simpl in Hw. rewrite Hc in Hw.
        by rewrite andb_false_r in Hw.
    + right. split; [done|]. split; [done|]. exists k, post.
      split; [done|]. split; [|done].
      rewrite ends_in_word_app in Hpre. simpl in Hpre. by rewrite Hc in Hpre.
  - intros [(Hne & Hw & pre & post & -> & Hpre & Hpost)
           |(Hne & Hw & pre & post & -> & Hpre & Hpost)].
    + split; [done|]. split; [done|]. exists pre, (post +:+ String c b).
      rewrite !append_assoc. split; [done|]. split; [done|].
      rewrite starts_with_word_app. destruct post; [exact Hc|exact Hpost].
    + split; [done|]. split; [done|]. exists (a +:+ String c pre), post.
      rewrite !append_assoc. split; [done|]. split; [|done].
      rewrite ends_in_word_app. simpl. by rewrite Hc.
Qed.

Lemma word_set_app_sep (a b : string) (c : ascii) :
  Char.is_word c = false →
  word_set (a +:+ String c b) = word_set a ∪ word_set b.
Proof.
  intros Hc. apply set_eq. intros w.
  rewrite elem_of_union, !elem_of_word_set. unfold is_token.
  rewrite str_lower_app. cbn [str_lower].
  apply maximal_runs_app_sep. by rewrite is_word_lower.
Qed.

Lemma word_set_empty : word_set "" = ∅.
Proof. reflexivity. Qed.

(** ** More on the comparator *)

Lemma ratio_eq_100 (m n : nat) :
  0 < n →
  (inject_Z (Z.of_nat m) / inject_Z (Z.of_nat n) * 100 == 100)%Q ↔ m = n.
Proof.
  intros Hn. destruct n as [|n]; [lia|].
  unfold Qeq, Qdiv, Qmult, Qinv, inject_Z. simpl. split; intros H; nia.
Qed.

Lemma ratio_eq_0 (m n : nat) :
  0 < n →
  (inject_Z (Z.of_nat m) / inject_Z (Z.of_nat n) * 100 == 0)%Q ↔ m = 0.
Proof.
  intros Hn. destruct n as [|n]; [lia|].
  unfold Qeq, Qdiv, Qmult, Qinv, inject_Z. simpl. split; intros H; nia.
Qed.

Lemma ratio_mono (m m' n : nat) :
  0 < n → m ≤ m' →
  (inject_Z (Z.of_nat m) / inject_Z (Z.of_nat n) * 100
   <= inject_Z (Z.of_nat m') / inject_Z (Z.of_nat n) * 100)%Q.
Proof.
  intros Hn Hm. destruct n as [|n]; [lia|].
  unfold Qle, Qdiv, Qmult, Qinv, inject_Z. simpl. nia.
Qed.

Lemma word_set_lower (text : string) : word_set (str_lower text) = word_set text.
Proof. unfold word_set. by rewrite str_lower_idempotent. Qed.

Lemma word_set_subseteq (t t' : string) :
  word_set t ⊆ word_set t' ↔ ∀ w, is_token t w → is_token t' w.
Proof.
  rewrite elem_of_subseteq. apply forall_proper. intros w.
  by rewrite !elem_of_word_set.
Qed.

Lemma word_set_nonempty (t : string) :
  0 < size (word_set t) ↔ ∃ w, is_token t w.
Proof.
  split.
  - intros [w Hw]%size_pos_elem_of. exists w. by apply elem_of_word_set.
  - intros [w Hw%elem_of_word_set].
    destruct (size (word_set t)) eqn:E; [|lia].
    apply size_empty_iff in E. rewrite E in Hw. by apply not_elem_of_empty in Hw.
Qed.

Lemma compare_score (stl : gset string → list string) (r j : string) :
  score (compare_with_job_description stl r j)
  = score_of (word_set j) (word_set r).
Proof. reflexivity. Qed.

Lemma compare_missing (stl : gset string → list string) (r j : string) :
  missing_keywords (compare_with_job_description stl r j)
  = stl (word_set j ∖ word_set r).
Proof. reflexivity. Qed.

Lemma score_of_full (J R : gset string) :
  (score_of J R == 100)%Q ↔ 0 < size J ∧ J ⊆ R.
Proof.
  unfold score_of. case_decide as Hn.
  - rewrite ratio_eq_100 by done. split.
    + intros Hm. split; [done|].
      apply subseteq_intersection_2_L.
      apply set_subseteq_size_eq; [apply intersection_subseteq_l|lia].
    + intros [_ Hs]. by rewrite subseteq_intersection_1_L.
  - split; [intros H; vm_compute in H; discriminate H|]. intros [? _]. lia.
Qed.

Lemma score_of_zero (J R : gset string) :
  (score_of J R == 0)%Q ↔ J ∩ R = ∅.
Proof.
  unfold score_of. case_decide as Hn.
  - rewrite ratio_eq_0 by done. rewrite size_empty_iff. by unfold_leibniz.
  - split; [intros _|done].
    assert (J = ∅) as ->.
    { apply leibniz_equiv, size_empty_iff. lia. }
    apply intersection_empty_l_L.
Qed.

Lemma score_of_mono (J R R' : gset string) :
  R ⊆ R' → (score_of J R <= score_of J R')%Q.
Proof.
  intros HR. unfold score_of. case_decide; [|done].
  apply ratio_mono; [done|]. apply subseteq_size.
  apply intersection_mono_l. done.
Qed.



(** X2. The comparison does not see the case of letters: lower-casing
    either text beforehand changes nothing. *)
Theorem compare_ignores_case
    (set_to_list : gset string → list string) (resume_text job_description : string) :
  compare_with_job_description set_to_list
    (str_lower resume_text) (str_lower job_description)
  = compare_with_job_description set_to_list resume_text job_description
  ∧ compare_with_job_description set_to_list (str_lower resume_text) job_description
    = compare_with_job_description set_to_list resume_text job_description
  ∧ compare_with_job_description set_to_list resume_text (str_lower job_description)
    = compare_with_job_description set_to_list resume_text job_description.
Proof.
  unfold compare_with_job_description. by rewrite !word_set_lower.
Qed.

(** X3. The score is 100 exactly when the job description has a token and
    the resume has every token of the job description. *)
Theorem score_full_iff
    (set_to_list : gset string → list string) (resume_text job_description : string) :
  (score (compare_with_job_description set_to_list resume_text job_description)
   == 100)%Q
  ↔ (∃ w, is_token job_description w)
    ∧ (∀ w, is_token job_description w → is_token resume_text w).
Proof.
  rewrite compare_score, score_of_full.
  by rewrite word_set_nonempty, word_set_subseteq.
Qed.

(** X4. The score is 0 exactly when no token of the job description is a
    token of the resume. *)
Theorem score_zero_iff
    (set_to_list : gset string → list string) (resume_text job_description : string) :
  (score (compare_with_job_description set_to_list resume_text job_description)
   == 0)%Q
  ↔ ∀ w, is_token job_description w → ¬ is_token resume_text w.
Proof.
  rewrite compare_score, score_of_zero. split.
  - intros H w Hj Hr. apply elem_of_word_set in Hj, Hr.
    assert (w ∈ word_set job_description ∩ word_set resume_text) as Hw
      by (by apply elem_of_intersection).
    rewrite H in Hw. by apply not_elem_of_empty in Hw.
  - intros H. apply set_eq. intros w.
    rewrite elem_of_intersection, !elem_of_word_set. split.
    + intros [Hj Hr]. destruct (H w Hj Hr).
    + by intros ?%not_elem_of_empty.
Qed.

(** X5. A resume with more tokens never scores lower, and has no keyword
    missing that the smaller one had not. *)
Theorem compare_monotone
    (set_to_list : gset string → list string)
    (set_to_list_enumerates : ∀ X, set_to_list X ≡ₚ elements X)
    (resume_text resume_text' job_description : string) :
  (∀ w, is_token resume_text w → is_token resume_text' w) →
  (score (compare_with_job_description set_to_list resume_text job_description)
   <= score (compare_with_job_description set_to_list resume_text' job_description))%Q
  ∧ ∀ w,
      w ∈ missing_keywords
            (compare_with_job_description set_to_list resume_text' job_description) →
      w ∈ missing_keywords
            (compare_with_job_description set_to_list resume_text job_description).
Proof.
  intros Hsub%word_set_subseteq. split.
  - rewrite !compare_score. by apply score_of_mono.
  - intros w. rewrite !compare_missing, !set_to_list_enumerates.
    rewrite !elem_of_elements, !elem_of_difference.
    intros [Hj Hr']. split; [done|]. intros Hr. apply Hr', Hsub, Hr.
Qed.

Lemma compare_monotone_witness :
  (score (compare_with_job_description elements "python" example_job)
   <= score (compare_with_job_description elements example_resume example_job))%Q.
Proof.
  assert (H : ∀ w, is_token "python" w → is_token example_resume w).
  { apply word_set_subseteq.
    apply (bool_decide_unpack _); vm_compute; exact I. }
  exact (proj1 (compare_monotone elements elements_enumerates
                  "python" example_resume example_job H)).
Defined.

Lemma set_to_list_nil (stl : gset string → list string) (X : gset string) :
  (∀ X, stl X ≡ₚ elements X) → stl X = [] ↔ X = ∅.
Proof.
  intros Hstl. split.
  - intros H. apply leibniz_equiv, elements_empty_iff.
    apply Permutation_nil_r. by rewrite <- Hstl, H.
  - intros ->. apply Permutation_nil_r. by rewrite Hstl, elements_empty.
Qed.



(** X7. A resume without any token, such as the empty text of a scanned
    document, scores 0, and every token of the job description is
    missing. *)
Theorem resume_without_tokens
    (set_to_list : gset string → list string)
    (set_to_list_enumerates : ∀ X, set_to_list X ≡ₚ elements X)
    (resume_text job_description : string) :
  (∀ w, ¬ is_token resume_text w) →
  let result :=
    compare_with_job_description set_to_list resume_text job_description in
  (score result == 0)%Q
  ∧ ∀ w, w ∈ missing_keywords result ↔ is_token job_description w.
Proof.
  intros Hno result. unfold result.
  assert (HR : word_set resume_text = ∅).
  { apply set_eq. intros w. rewrite elem_of_word_set. split.
    - intros Hw. destruct (Hno w Hw).
    - by intros ?%not_elem_of_empty. }
  rewrite compare_score, compare_missing, HR. split.
  - apply score_of_zero. apply intersection_empty_r_L.
  - intros w. rewrite set_to_list_enumerates, elem_of_elements.
    by rewrite difference_empty_L, elem_of_word_set.
Qed.

Lemma resume_without_tokens_witness :
  (score (compare_with_job_description elements "" example_job) == 0)%Q
  ∧ ∀ w, w ∈ missing_keywords
               (compare_with_job_description elements "" example_job)
         ↔ is_token example_job w.
Proof.
  apply (resume_without_tokens elements elements_enumerates "" example_job).
  intros w Hw. by apply token_at_empty in Hw.
Defined.

(** ** More on the optimizer *)

(** The optimized text when keywords are missing, cut at the characters that
    separate its parts. *)
Lemma optimize_resume_shape
    (resume_text job_description : string) (analysis : Analysis) :
  missing_keywords analysis ≠ [] →
  optimize_resume resume_text job_description analysis
  = resume_text
      +:+ String Char.newline
            (block_head
               +:+ String " "
                     (str_join ", " (take 10 (missing_keywords analysis))
                        +:+ String Char.newline (block_tail (score analysis)))).
Proof.
  intros Hne. unfold optimize_resume.
  destruct (missing_keywords analysis) as [|k ks]; [done|].
  cbn [list_truthy]. f_equal. unfold block_head, block_tail, nl.
  rewrite !append_assoc. reflexivity.
Qed.

Lemma optimize_resume_suffix
    (resume_text job_description : string) (analysis : Analysis) :
  ∃ suffix,
    optimize_resume resume_text job_description analysis
    = resume_text +:+ suffix
    ∧ (suffix = "" ↔ missing_keywords analysis = [])
    ∧ String.length (optimize_resume resume_text job_description analysis)
      = String.length resume_text + String.length suffix.
Proof.
  destruct (missing_keywords analysis) as [|k ks] eqn:Hm.
  - exists "". unfold optimize_resume. rewrite Hm. cbn [list_truthy].
    rewrite append_nil_r. split; [done|]. split; [done|]. simpl. lia.
  - eexists. rewrite optimize_resume_shape by (by rewrite Hm).
    split; [reflexivity|]. split; [|apply length_append].
    split; intros H; discriminate H.
Qed.

(** X8. The optimizer never edits the resume: the optimized text is the
    resume text followed by a suffix, which is empty exactly when no keyword
    is missing. *)
Theorem optimize_resume_extends
    (resume_text job_description : string) (analysis : Analysis) :
  ∃ suffix,
    optimize_resume resume_text job_description analysis
    = resume_text +:+ suffix
    ∧ (suffix = "" ↔ missing_keywords analysis = [])
    ∧ String.length (optimize_resume resume_text job_description analysis)
      = String.length resume_text + String.length suffix.
Proof. apply optimize_resume_suffix. Qed.

(** The tokens of a word are the word. *)
Lemma word_set_token (text k : string) : is_token text k → word_set k = {[k]}.
Proof.
  intros Hk. pose proof (token_lower _ _ Hk) as Hlow.
  destruct Hk as (Hne & Hw & _).
  apply set_eq. intros w. rewrite elem_of_word_set, elem_of_singleton.
  unfold is_token. rewrite Hlow. split.
  - intros (Hwne & Hww & pre & post & Hs & Hpre & Hpost).
    rewrite Hs, !str_all_app in Hw.
    apply andb_true_iff in Hw as [Hp Hw']. apply andb_true_iff in Hw' as [_ Hq].
    assert (pre = "") as ->.
    { destruct pre as [|c pre]; [done|].
      rewrite (ends_in_word_all false (String c pre)) in Hpre; done. }
    assert (post = "") as ->.
    { destruct post as [|c post]; [done|]. simpl in Hq, Hpost.
      rewrite Hpost in Hq. done. }
    rewrite Hs. simpl. by rewrite append_nil_r.
  - intros ->. split; [done|]. split; [done|]. exists "", "".
    simpl. by rewrite append_nil_r.
Qed.

Lemma word_set_join (ks : list string) :
  word_set (str_join ", " ks) = ⋃ (word_set <$> ks).
Proof.
  unfold str_join. induction ks as [|k ks IH].
  - simpl. by rewrite word_set_empty.
  - destruct ks as [|k' ks].
    + simpl. by rewrite (right_id_L ∅ (∪)).
    + change (String.concat ", " (k :: k' :: ks))
        with (k +:+ String "," (String " " (String.concat ", " (k' :: ks)))).
      rewrite word_set_app_sep by reflexivity.
      change (String " " (String.concat ", " (k' :: ks)))
        with ("" +:+ String " " (String.concat ", " (k' :: ks))).
      rewrite word_set_app_sep by reflexivity.
      rewrite word_set_empty, (left_id_L ∅ (∪)), IH. done.
Qed.

Lemma word_set_join_tokens (text : string) (ks : list string) :
  Forall (is_token text) ks → word_set (str_join ", " ks) = list_to_set ks.
Proof.
  intros Hks. rewrite word_set_join.
  induction Hks as [|k ks Hk Hks IH]; [done|].
  rewrite fmap_cons, union_list_cons, list_to_set_cons.
  by rewrite IH, (word_set_token text k).
Qed.

(** The tokens of the optimized text include those of the resume and those
    of the listed keywords. *)
Lemma word_set_optimized
    (resume_text job_description : string) (analysis : Analysis) :
  missing_keywords analysis ≠ [] →
  word_set resume_text
    ∪ word_set (str_join ", " (take 10 (missing_keywords analysis)))
  ⊆ word_set (optimize_resume resume_text job_description analysis).
Proof.
  intros Hne. rewrite optimize_resume_shape by done.
  rewrite !word_set_app_sep by reflexivity.
  intros w. rewrite !elem_of_union. tauto.
Qed.

(** X9. Comparing the optimized text with the same job description: the
    score is not lower than before, none of the keywords the suggestion
    block lists (the first ten) is missing any more, and when at most ten
    keywords were missing none is left and the score of a job description
    with tokens is 100. *)
Theorem rescoring_after_optimization
    (set_to_list : gset string → list string)
    (set_to_list_enumerates : ∀ X, set_to_list X ≡ₚ elements X)
    (resume_text job_description : string) :
  let analysis :=
    compare_with_job_description set_to_list resume_text job_description in
  let optimized := optimize_resume resume_text job_description analysis in
  let again :=
    compare_with_job_description set_to_list optimized job_description in
  (score analysis <= score again)%Q
  ∧ (∀ w, w ∈ missing_keywords again → w ∈ drop 10 (missing_keywords analysis))
  ∧ (length (missing_keywords analysis) ≤ 10 →
     missing_keywords again = []
     ∧ ((∃ w, is_token job_description w) → (score again == 100)%Q)).
Proof.
  intros analysis optimized again.
  set (J := word_set job_description). set (R := word_set resume_text).
  set (O := word_set optimized).
  assert (Hmk : ∀ w, w ∈ missing_keywords analysis ↔ w ∈ J ∧ w ∉ R).
  { intros w. unfold analysis. rewrite compare_missing.
    by rewrite set_to_list_enumerates, elem_of_elements, elem_of_difference. }
  assert (Hagain : ∀ w, w ∈ missing_keywords again ↔ w ∈ J ∧ w ∉ O).
  { intros w. unfold again. rewrite compare_missing.
    by rewrite set_to_list_enumerates, elem_of_elements, elem_of_difference. }
  assert (Hsub : R ⊆ O ∧ ∀ w, w ∈ take 10 (missing_keywords analysis) → w ∈ O).
  { unfold O, optimized.
    destruct (decide (missing_keywords analysis = [])) as [He|Hne].
    - unfold optimize_resume. rewrite He. cbn [list_truthy]. split; [done|].
      intros w. rewrite take_nil. by intros ?%elem_of_nil.
    - pose proof (word_set_optimized resume_text job_description analysis Hne)
        as Hopt.
      rewrite (word_set_join_tokens job_description) in Hopt.
      + split.
        * intros w Hw. apply Hopt, elem_of_union. by left.
        * intros w Hw. apply Hopt, elem_of_union. right.
          by apply elem_of_list_to_set.
      + apply Forall_forall. intros k Hk%subseteq_take.
        apply elem_of_word_set. by apply Hmk in Hk as [? _]. }
  destruct Hsub as [HRO Htake].
  assert (Hdrop : ∀ w, w ∈ missing_keywords again
                       → w ∈ drop 10 (missing_keywords analysis)).
  { intros w [HJ HO]%Hagain.
    assert (w ∈ missing_keywords analysis) as Hw.
    { apply Hmk. split; [done|]. intros Hr. apply HO, HRO, Hr. }
    rewrite <- (take_drop 10 (missing_keywords analysis)) in Hw.
    apply elem_of_app in Hw as [Hw|Hw]; [|done].
    destruct (HO (Htake w Hw)). }
  split; [|split; [exact Hdrop|]].
  - unfold analysis, again. rewrite !compare_score. by apply score_of_mono.
  - intros Hlen.
    assert (Hnil : missing_keywords again = []).
    { destruct (missing_keywords again) as [|w l] eqn:E; [done|].
      assert (w ∈ drop 10 (missing_keywords analysis)) as Hw
        by (apply Hdrop; left).
      rewrite drop_ge in Hw by lia. by apply elem_of_nil in Hw. }
    split; [exact Hnil|].
    intros Htok. unfold again in *. rewrite compare_score.
    rewrite compare_missing in Hnil.
    apply set_to_list_nil in Hnil; [|done].
    apply score_of_full. split; [by apply word_set_nonempty|].
    by apply empty_difference_subseteq_L.
Qed.

Lemma rescoring_after_optimization_witness :
  (score
     (compare_with_job_description elements
        (optimize_resume example_resume example_job
           (compare_with_job_description elements example_resume example_job))
        example_job)
   == 100)%Q.
Proof.
  apply (rescoring_after_optimization elements elements_enumerates
           example_resume example_job).
  - vm_compute. lia.
  - exists "sql". apply elem_of_word_set.
    apply (bool_decide_unpack _); vm_compute; exact I.
Defined.

(** ** More on the exporter *)

Lemma filter_id {A} (P : A → Prop) `{∀ x, Decision (P x)} (l : list A) :
  Forall P l → filter P l = l.
Proof.
  induction 1 as [|x l Hx Hl IH]; [done|].
  by rewrite filter_cons_True, IH.
Qed.

Lemma optimized_document_eq (text : string) :
  optimized_document text
  = Docx.Heading "Optimized Resume" 0 :: (Docx.Paragraph <$> paragraphs_of text).
Proof.
  unfold optimized_document, paragraphs_of. rewrite add_paragraphs.
  cbn [Docx.add_heading Docx.Document app]. do 2 f_equal.
  apply list_filter_iff. intros line. rewrite strip_truthy.
  by destruct (blank line).
Qed.

Lemma paragraph_texts_fmap (ls : list string) :
  paragraph_texts (Docx.Paragraph <$> ls) = ls.
Proof.
  induction ls as [|l ls IH]; [done|].
  change (l :: paragraph_texts (Docx.Paragraph <$> ls) = l :: ls).
  by rewrite IH.
Qed.

Lemma paragraph_texts_document (text : string) :
  paragraph_texts (optimized_document text) = paragraphs_of text.
Proof. rewrite optimized_document_eq. apply paragraph_texts_fmap. Qed.

Lemma str_split_app (a b : string) :
  str_split Char.newline (a +:+ String Char.newline b)
  = str_split Char.newline a ++ str_split Char.newline b.
Proof.
  induction a as [|c a IH].
  - cbn [String.append str_split]. by rewrite decide_True by done.
  - cbn [String.append str_split]. rewrite IH.
    pose proof (str_split_nonempty Char.newline a) as Hne.
    destruct (str_split Char.newline a) as [|l ls]; [done|].
    by case_decide.
Qed.

Lemma paragraphs_of_app (a b : string) :
  paragraphs_of (a +:+ String Char.newline b) = paragraphs_of a ++ paragraphs_of b.
Proof. unfold paragraphs_of. by rewrite str_split_app, filter_app. Qed.

Lemma str_split_one_line_id (line : string) :
  one_line line = true → str_split Char.newline line = [line].
Proof.
  unfold one_line. induction line as [|c line IH]; [done|].
  cbn [str_all str_split]. intros [Hc Hl]%andb_true_iff.
  apply bool_decide_eq_true in Hc.
  rewrite decide_False by done. by rewrite IH.
Qed.

Lemma paragraphs_of_line (line : string) :
  one_line line = true →
  paragraphs_of line = if blank line then [] else [line].
Proof.
  intros Hl. unfold paragraphs_of. rewrite str_split_one_line_id by done.
  destruct (blank line) eqn:Hb.
  - by rewrite filter_cons_False by congruence.
  - by rewrite filter_cons_True by done.
Qed.

(** Splitting what was joined gives back the lines. *)
Lemma str_split_join (ls : list string) :
  ls ≠ [] → Forall (λ line, one_line line = true) ls →
  str_split Char.newline (str_join nl ls) = ls.
Proof.
  unfold str_join. intros Hne Hls. induction Hls as [|l ls Hl Hls IH]; [done|].
  destruct ls as [|l' ls].
  - simpl. by apply str_split_one_line_id.
  - change (String.concat nl (l :: l' :: ls))
      with (l +:+ String Char.newline (String.concat nl (l' :: ls))).
    rewrite str_split_app, IH by done.
    by rewrite str_split_one_line_id.
Qed.

Lemma blank_lines (text : string) :
  blank text = true
  ↔ Forall (λ line, blank line = true) (str_split Char.newline text).
Proof.
  unfold blank. induction text as [|c text IH].
  - split; [by repeat constructor|done].
  - cbn [str_all str_split].
    pose proof (str_split_nonempty Char.newline text) as Hne.
    destruct (str_split Char.newline text) as [|l ls]; [done|].
    case_decide as Hc.
    + subst c. change (Char.is_space Char.newline) with true.
      rewrite andb_true_l, IH. split; [by constructor|by inversion 1].
    + rewrite andb_true_iff, IH. split.
      * intros [Hc' Hall]. inversion Hall; subst. constructor; [|done].
        cbn [str_all]. by rewrite Hc'.
      * intros Hall. inversion Hall as [|? ? Hl Hls]; subst.
        cbn [str_all] in Hl. apply andb_true_iff in Hl as [? ?].
        split; [done|]. by constructor.
Qed.

Lemma paragraphs_of_nil (text : string) :
  paragraphs_of text = [] ↔ blank text = true.
Proof.
  rewrite blank_lines. unfold paragraphs_of.
  induction (str_split Char.newline text) as [|l ls IH].
  - split; [by constructor|done].
  - destruct (blank l) eqn:Hb.
    + rewrite filter_cons_False by congruence. rewrite IH.
      split; [by constructor|by inversion 1].
    + rewrite filter_cons_True by done. split; [done|].
      inversion 1; congruence.
Qed.

Lemma paragraphs_of_wf (text : string) :
  Forall (λ p, blank p = false ∧ one_line p = true) (paragraphs_of text).
Proof.
  unfold paragraphs_of. apply Forall_forall. intros p [Hb Hp]%list_elem_of_filter.
  split; [done|].
  pose proof (str_split_one_line text) as H.
  rewrite Forall_forall in H. by apply H.
Qed.


(** X11. The exported document is the heading alone exactly when the text
    holds nothing but whitespace. *)
Theorem optimized_document_blank (optimized_text : string) :
  optimized_document optimized_text = [Docx.Heading "Optimized Resume" 0]
  ↔ blank optimized_text = true.
Proof.
  rewrite optimized_document_eq, <- paragraphs_of_nil. split.
  - intros [= H]. by apply fmap_nil_inv in H.
  - by intros ->.
Qed.

(** X12. Exporting two texts put together with a line break between them
    gives the paragraphs of the first followed by those of the second. *)
Theorem optimized_document_app (a b : string) :
  optimized_document (a +:+ nl +:+ b)
  = optimized_document a ++ (Docx.Paragraph <$> paragraph_texts (optimized_document b)).
Proof.
  rewrite paragraph_texts_document, !optimized_document_eq.
  change (a +:+ nl +:+ b) with (a +:+ String Char.newline b).
  by rewrite paragraphs_of_app, fmap_app.
Qed.


Lemma one_line_app (s t : string) :
  one_line (s +:+ t) = one_line s && one_line t.
Proof. apply str_all_app. Qed.

Lemma one_line_uint (d : Decimal.uint) :
  one_line (NilEmpty.string_of_uint d) = true.
Proof. induction d; simpl; done. Qed.

Lemma one_line_decimal (n : Z) : one_line (decimal n) = true.
Proof.
  unfold decimal, NilZero.string_of_uint.
  destruct (N.to_uint (Z.to_N n)) eqn:E; try done;
    rewrite <- E; apply one_line_uint.
Qed.

Lemma one_line_format_1f (x : Q) : one_line (format_1f x) = true.
Proof.
  unfold format_1f. rewrite !one_line_app, !one_line_decimal.
  by destruct (x ?= 0)%Q.
Qed.

Lemma one_line_join (ks : list string) :
  Forall (λ k, one_line k = true) ks → one_line (str_join ", " ks) = true.
Proof.
  unfold str_join. induction 1 as [|k ks Hk Hks IH]; [done|].
  destruct ks as [|k' ks]; [done|].
  change (String.concat ", " (k :: k' :: ks))
    with (k +:+ ", " +:+ String.concat ", " (k' :: ks)).
  by rewrite !one_line_app, Hk, IH.
Qed.

(** A token holds no line break. *)
Lemma one_line_word (k : string) :
  str_all Char.is_word k = true → one_line k = true.
Proof.
  unfold one_line. induction k as [|c k IH]; [done|].
  cbn [str_all]. intros [Hc Hk]%andb_true_iff. rewrite IH by done.
  rewrite bool_decide_true; [done|]. intros ->. done.
Qed.

(** The optimized text when keywords are missing, line by line. *)
Lemma optimize_resume_lines
    (resume_text job_description : string) (analysis : Analysis) :
  missing_keywords analysis ≠ [] →
  optimize_resume resume_text job_description analysis
  = resume_text
      +:+ String Char.newline
      ("" +:+ String Char.newline
      ("--- OPTIMIZATION SUGGESTIONS ---" +:+ String Char.newline
      (("Consider adding these keywords: "
          +:+ str_join ", " (take 10 (missing_keywords analysis)))
         +:+ String Char.newline
      (("Your resume matches " +:+ format_1f (score analysis)
          +:+ "% of job requirements.") +:+ String Char.newline "")))).
Proof.
  intros Hne. unfold optimize_resume.
  destruct (missing_keywords analysis) as [|k ks]; [done|].
  cbn [list_truthy]. f_equal. unfold nl.
  rewrite !append_assoc. reflexivity.
Qed.

Lemma optimized_document_optimize
    (resume_text job_description : string) (analysis : Analysis) :
  missing_keywords analysis ≠ [] →
  Forall (λ k, one_line k = true) (take 10 (missing_keywords analysis)) →
  optimized_document (optimize_resume resume_text job_description analysis)
  = optimized_document resume_text
      ++ [Docx.Paragraph "--- OPTIMIZATION SUGGESTIONS ---";
          Docx.Paragraph
            ("Consider adding these keywords: "
               +:+ str_join ", " (take 10 (missing_keywords analysis)));
          Docx.Paragraph
            ("Your resume matches " +:+ format_1f (score analysis)
               +:+ "% of job requirements.")].
Proof.
  intros Hne Hks. rewrite optimize_resume_lines by done.
  rewrite !optimized_document_eq, !paragraphs_of_app.
  set (resume_paragraphs := paragraphs_of resume_text).
  rewrite !paragraphs_of_line; try done.
  - rewrite !fmap_app. reflexivity.
  - rewrite !one_line_app, one_line_format_1f. done.
  - rewrite one_line_app, one_line_join by done. done.
Qed.

(** X14. Exporting an optimized text: when keywords are missing and the
    listed ones hold no line break, the document is that of the resume text
    followed by three paragraphs, the three lines of the suggestion block;
    the blank line before the block leaves no paragraph. *)
Theorem export_of_optimized
    (resume_text job_description : string) (analysis : Analysis) :
  missing_keywords analysis ≠ [] →
  Forall (λ k, one_line k = true) (take 10 (missing_keywords analysis)) →
  optimized_document (optimize_resume resume_text job_description analysis)
  = optimized_document resume_text
      ++ [Docx.Paragraph "--- OPTIMIZATION SUGGESTIONS ---";
          Docx.Paragraph
            ("Consider adding these keywords: "
               +:+ str_join ", " (take 10 (missing_keywords analysis)));
          Docx.Paragraph
            ("Your resume matches " +:+ format_1f (score analysis)
               +:+ "% of job requirements.")].
Proof. apply optimized_document_optimize. Qed.

Lemma export_of_optimized_witness :
  optimized_document
    (optimize_resume example_resume example_job
       {| score := 75; missing_keywords := ["sql"] |})
  = optimized_document example_resume
      ++ [Docx.Paragraph "--- OPTIMIZATION SUGGESTIONS ---";
          Docx.Paragraph
            ("Consider adding these keywords: " +:+ str_join ", " (take 10 ["sql"]));
          Docx.Paragraph
            ("Your resume matches " +:+ format_1f 75 +:+ "% of job requirements.")].
Proof.
  apply (export_of_optimized example_resume example_job
           {| score := 75; missing_keywords := ["sql"] |}).
  - discriminate.
  - repeat constructor.
Defined.

(** ** More on the extractor *)

Lemma str_concat_nil (l : list string) :
  str_concat l = "" ↔ Forall (λ s, s = "") l.
Proof.
  unfold str_concat. induction l as [|s l IH]; [by split; [constructor|]|].
  cbn [foldr]. split.
  - intros H. destruct s; [|done]. simpl in H. constructor; [done|by apply IH].
  - inversion 1; subst. simpl. by apply IH.
Qed.

(** X15. A pdf yields the empty text exactly when it can be read and no page
    of it has text: a document of scanned pages, or one without pages, is no
    error. *)
Theorem extract_text_from_pdf_empty
    (file : Type) (PdfReader_pages : file → result (list Page)) (pdf_file : file) :
  extract_text_from_pdf file PdfReader_pages pdf_file = Ok ""
  ↔ ∃ pages,
      PdfReader_pages pdf_file = Ok pages
      ∧ Forall (λ page, extract_text page = None ∨ extract_text page = Some "")
          pages.
Proof.
  unfold extract_text_from_pdf.
  destruct (PdfReader_pages pdf_file) as [pages|e]; cbn [mbind result_bind].
  - rewrite (fold_append (λ page,
               match extract_text page with
               | Some t => if str_truthy t then t else ""
               | None => ""
               end)).
    cbn [String.append]. split.
    + intros [= H]. exists pages. split; [done|].
      apply str_concat_nil in H. rewrite Forall_fmap in H.
      eapply Forall_impl; [exact H|]. intros page Hp. simpl in Hp.
      destruct (extract_text page) as [[|c t]|]; auto. discriminate Hp.
    + intros (pages' & [= <-] & H). f_equal. apply str_concat_nil.
      rewrite Forall_fmap. eapply Forall_impl; [exact H|].
      intros page [Hp|Hp]; simpl; by rewrite Hp.
  - split; [done|]. by intros (pages & ? & _).
Qed.


(** The paragraphs of a text made of lines that each end in a line break. *)
Lemma paragraphs_of_lines (paras : list string) :
  Forall (λ p, one_line p = true) paras →
  paragraphs_of (str_concat ((λ para, para +:+ nl) <$> paras))
  = filter (λ p, blank p = false) paras.
Proof.
  unfold str_concat. induction 1 as [|p ps Hp Hps IH]; [done|].
  cbn [fmap list_fmap foldr].
  rewrite append_assoc.
  change (nl +:+ ?x) with (String Char.newline x).
  rewrite paragraphs_of_app, paragraphs_of_line by done.
  fold (fmap (M := list) (λ para, para +:+ nl) ps). rewrite IH.
  destruct (blank p) eqn:Hb.
  - by rewrite filter_cons_False by congruence.
  - by rewrite filter_cons_True by done.
Qed.

(** X17. From a docx to the exported docx: when each paragraph of the
    document read is one line, exporting the extracted text gives the
    heading followed by the paragraphs that are not blank, in order. *)
Theorem export_of_docx_text
    (Document_paragraphs : string → result (list string))
    (docx_file : string) (paragraphs : list string) :
  Document_paragraphs docx_file = Ok paragraphs →
  Forall (λ p, one_line p = true) paragraphs →
  ∃ text,
    extract_text_from_docx Document_paragraphs docx_file = Ok text
    ∧ optimized_document text
      = Docx.Heading "Optimized Resume" 0
          :: (Docx.Paragraph <$> filter (λ p, blank p = false) paragraphs).
Proof.
  intros Hdoc Hps. unfold extract_text_from_docx. rewrite Hdoc.
  cbn [mbind result_bind]. eexists. split; [reflexivity|].
  rewrite (fold_append (λ para, para +:+ nl)). cbn [String.append].
  by rewrite optimized_document_eq, paragraphs_of_lines.
Qed.

Lemma export_of_docx_text_witness :
  ∃ text,
    extract_text_from_docx (λ _, Ok ["Jane Doe"; "  "; "Python developer"])
      "uploads/cv.docx" = Ok text
    ∧ optimized_document text
      = Docx.Heading "Optimized Resume" 0
          :: (Docx.Paragraph
                <$> filter (λ p, blank p = false)
                      ["Jane Doe"; "  "; "Python developer"]).
Proof.
  apply (export_of_docx_text (λ _, Ok ["Jane Doe"; "  "; "Python developer"])
           "uploads/cv.docx" ["Jane Doe"; "  "; "Python developer"]).
  - reflexivity.
  - repeat constructor.
Defined.

(** ** File names *)

Lemma rsplit_once_none (sep : ascii) (s : string) :
  rsplit_once sep s = None ↔ str_contains sep s = false.
Proof.
  induction s as [|c s IH]; [done|]. cbn [rsplit_once str_contains].
  destruct (rsplit_once sep s) as [[h t]|].
  - split; [done|]. intros [_ H]%orb_false_iff. apply IH in H. done.
  - destruct IH as [IH _]. rewrite IH by done. rewrite orb_false_r.
    case_decide as Hc.
    + rewrite bool_decide_true by done. done.
    + rewrite bool_decide_false by done. done.
Qed.

Lemma rsplit_once_some (sep : ascii) (s h t : string) :
  rsplit_once sep s = Some (h, t)
  ↔ s = h +:+ String sep t ∧ str_contains sep t = false.
Proof.
  split.
  - revert h. induction s as [|c s IH]; intros h; [done|].
    cbn [rsplit_once]. destruct (rsplit_once sep s) as [[h' t']|] eqn:E.
    + intros [= <- <-]. destruct (IH h' eq_refl) as [-> Ht]. done.
    + case_decide as Hc; [|done]. intros [= <- <-]. subst c.
      split; [done|]. by apply rsplit_once_none.
  - intros [-> Ht]. induction h as [|c h IH].
    + cbn [String.append rsplit_once].
      apply rsplit_once_none in Ht. rewrite Ht. by rewrite decide_True.
    + cbn [String.append rsplit_once]. by rewrite IH.
Qed.

Lemma str_contains_app (c : ascii) (s t : string) :
  str_contains c (s +:+ t) = str_contains c s || str_contains c t.
Proof.
  induction s as [|a s IH]; [done|]. cbn [String.append str_contains].
  by rewrite IH, orb_assoc.
Qed.

(** Where a name has a dot, [rsplit] cuts it at the last one. *)
Lemma str_rsplit1_dot (filename : string) :
  str_contains "." filename = true →
  ∃ stem ext,
    str_rsplit1 "." filename = [stem; ext]
    ∧ filename = stem +:+ "." +:+ ext ∧ str_contains "." ext = false.
Proof.
  intros Hdot. unfold str_rsplit1.
  destruct (rsplit_once "." filename) as [[h t]|] eqn:E.
  - exists h, t. apply rsplit_once_some in E as [-> Ht]. done.
  - apply rsplit_once_none in E. congruence.
Qed.

Lemma str_rsplit1_cut (stem ext : string) :
  str_contains "." ext = false →
  str_rsplit1 "." (stem +:+ "." +:+ ext) = [stem; ext].
Proof.
  intros Hext. unfold str_rsplit1.
  assert (rsplit_once "." (stem +:+ "." +:+ ext) = Some (stem, ext)) as ->
    by (by apply rsplit_once_some).
  done.
Qed.

Lemma str_rsplit1_no_dot (filename : string) :
  str_contains "." filename = false → str_rsplit1 "." filename = [filename].
Proof.
  intros H. unfold str_rsplit1. apply rsplit_once_none in H. by rewrite H.
Qed.

Lemma allowed_extension (ext : string) :
  ext ∈ ALLOWED_EXTENSIONS ↔ ext = "pdf" ∨ ext = "docx".
Proof.
  unfold ALLOWED_EXTENSIONS.
  rewrite elem_of_union, !elem_of_singleton. done.
Qed.

(** X18. [allowed_file] never raises, and it accepts a name exactly when
    what follows its last dot is 'pdf' or 'docx' in any case of letters. *)
Theorem allowed_file_spec (filename : string) :
  (∃ b, allowed_file filename = Some b)
  ∧ (allowed_file filename = Some true
     ↔ ∃ stem ext,
         filename = stem +:+ "." +:+ ext
         ∧ str_contains "." ext = false
         ∧ (str_lower ext = "pdf" ∨ str_lower ext = "docx")).
Proof.
  unfold allowed_file. destruct (str_contains "." filename) eqn:Hdot.
  - destruct (str_rsplit1_dot filename Hdot) as (stem & ext & -> & Hf & Hext).
    cbn [lookup list_lookup mbind option_bind]. split; [by eexists|].
    split.
    + intros [= H%bool_decide_eq_true%allowed_extension].
      by exists stem, ext.
    + intros (stem' & ext' & Hf' & Hext' & Hlow).
      pose proof (str_rsplit1_cut stem' ext' Hext') as H1.
      pose proof (str_rsplit1_cut stem ext Hext) as H2.
      rewrite <- Hf' in H1. rewrite <- Hf in H2. rewrite H1 in H2.
      injection H2 as -> ->. f_equal.
      by apply bool_decide_eq_true, allowed_extension.
  - split; [by eexists|]. split; [done|].
    intros (stem & ext & -> & _ & _).
    rewrite !str_contains_app in Hdot. simpl in Hdot.
    by rewrite orb_true_r in Hdot.
Qed.



(** X20. The name of the downloaded file never fails to be made: it is
    "optimized_", the stored name up to its last dot (the whole name when it
    has no dot), and ".docx". *)
Theorem download_name_spec (filename : string) :
  ∃ stem,
    download_name filename = Some ("optimized_" +:+ stem +:+ ".docx")
    ∧ (str_contains "." filename = false → stem = filename)
    ∧ (∀ s ext, filename = s +:+ "." +:+ ext →
                str_contains "." ext = false → stem = s).
Proof.
  unfold download_name. destruct (str_contains "." filename) eqn:Hdot.
  - destruct (str_rsplit1_dot filename Hdot) as (stem & ext & Hr & Hf & Hext).
    exists stem. rewrite Hr. split; [done|]. split; [done|].
    intros s ext' -> Hext'. rewrite str_rsplit1_cut in Hr by done.
    by injection Hr as -> _.
  - exists filename. rewrite str_rsplit1_no_dot by done.
    split; [done|]. split; [done|].
    intros s ext -> _. rewrite !str_contains_app in Hdot. simpl in Hdot.
    by rewrite orb_true_r in Hdot.
Qed.

(** ** Routes *)


Lemma score_of_range (J R : gset string) : (0 <= score_of J R <= 100)%Q.
Proof.
  unfold score_of. case_decide; [|done].
  apply ratio_bounds; [done|]. apply subseteq_size, intersection_subseteq_l.
Qed.

Lemma append_nil_inv (s t : string) : s +:+ t = s → t = "".
Proof.
  intros H. induction s as [|c s IH]; [done|].
  simpl in H. injection H as H. by apply IH.
Qed.

Section UploadProperties.

Variable set_to_list : gset string → list string.
Hypothesis set_to_list_enumerates : ∀ X, set_to_list X ≡ₚ elements X.

Lemma compare_missing_nil (resume_text job_description : string) :
  missing_keywords
    (compare_with_job_description set_to_list resume_text job_description) = []
  ↔ ∀ w, is_token job_description w → is_token resume_text w.
Proof.
  rewrite compare_missing, set_to_list_nil by done.
  rewrite <- word_set_subseteq. split.
  - apply empty_difference_subseteq_L.
  - apply subseteq_empty_difference_L.
Qed.

(** X22. What [upload_resume] stores: the score is between 0 and 100; the
    optimized text is the resume text followed by a suffix, and it is the
    resume text itself exactly when the resume has every token of the job
    description, which includes a job description that is empty or has no
    token, such as one of blanks or punctuation only. *)
Theorem upload_analysis_invariants (resume_text job_description : string) :
  let stored := upload_analysis set_to_list resume_text job_description in
  (0 <= snd stored <= 100)%Q
  ∧ (∃ suffix, fst stored = resume_text +:+ suffix)
  ∧ (fst stored = resume_text
     ↔ ∀ w, is_token job_description w → is_token resume_text w)
  ∧ ((∀ w, ¬ is_token job_description w) →
     fst stored = resume_text ∧ (snd stored == 0)%Q).
Proof.
  intros stored. unfold stored, upload_analysis.
  destruct (optimize_resume_suffix resume_text job_description
              (compare_with_job_description set_to_list resume_text job_description))
    as (suffix & Hopt & Hsuf & _).
  rewrite compare_missing_nil in Hsuf.
  destruct (str_truthy job_description) eqn:Hj; cbn [fst snd].
  - split; [rewrite compare_score; apply score_of_range|].
    split; [by exists suffix|].
    assert (Hiff : optimize_resume resume_text job_description
                     (compare_with_job_description set_to_list resume_text
                        job_description) = resume_text
                   ↔ ∀ w, is_token job_description w → is_token resume_text w).
    { rewrite <- Hsuf, Hopt. split.
      - apply append_nil_inv.
      - intros ->. apply append_nil_r. }
    split; [exact Hiff|].
    intros Hno. split.
    + apply Hiff. intros w Hw. destruct (Hno w Hw).
    + rewrite compare_score. apply score_of_zero.
      apply set_eq. intros w. rewrite elem_of_intersection, elem_of_word_set.
      split; [intros [Hw _]; destruct (Hno w Hw)|by intros ?%not_elem_of_empty].
  - destruct job_description; [|done].
    split; [done|]. split; [exists ""; by rewrite append_nil_r|].
    split; [|done]. split; [|done].
    intros _ w Hw. by apply token_at_empty in Hw.
Qed.

(** X23. What a download holds after an upload: when some token of the job
    description is not in the resume, the document is the export of the
    resume text followed by the three paragraphs of the suggestion block,
    with the stored score; otherwise it is the export of the resume text. *)
Theorem download_of_upload (resume_text job_description : string) :
  let stored := upload_analysis set_to_list resume_text job_description in
  let keywords :=
    take 10 (missing_keywords
               (compare_with_job_description set_to_list resume_text
                  job_description)) in
  ((∃ w, is_token job_description w ∧ ¬ is_token resume_text w) →
   optimized_document (fst stored)
   = optimized_document resume_text
       ++ [Docx.Paragraph "--- OPTIMIZATION SUGGESTIONS ---";
           Docx.Paragraph
             ("Consider adding these keywords: " +:+ str_join ", " keywords);
           Docx.Paragraph
             ("Your resume matches " +:+ format_1f (snd stored)
                +:+ "% of job requirements.")])
  ∧ ((∀ w, is_token job_description w → is_token resume_text w) →
     optimized_document (fst stored) = optimized_document resume_text).
Proof.
  intros stored keywords. split.
  - intros (w & Hj & Hr).
    assert (Hne : missing_keywords
                    (compare_with_job_description set_to_list resume_text
                       job_description) ≠ []).
    { rewrite compare_missing_nil. intros H. apply Hr, H, Hj. }
    assert (Htruthy : str_truthy job_description = true).
    { destruct job_description; [|done]. by apply token_at_empty in Hj. }
    unfold stored, upload_analysis. rewrite Htruthy. cbn [fst snd].
    apply optimized_document_optimize; [done|].
    apply Forall_forall. intros k Hk%subseteq_take.
    rewrite compare_missing, set_to_list_enumerates, elem_of_elements in Hk.
    apply elem_of_difference in Hk as [Hk _].
    apply elem_of_word_set in Hk as (_ & Hk & _). by apply one_line_word.
  - intros Hall. unfold stored, upload_analysis.
    destruct (str_truthy job_description); cbn [fst]; [|done].
    apply compare_missing_nil in Hall.
    unfold optimize_resume. by rewrite Hall.
Qed.

End UploadProperties.

Lemma upload_analysis_invariants_witness :
  fst (upload_analysis elements example_resume " - ") = example_resume
  ∧ (snd (upload_analysis elements example_resume " - ") == 0)%Q.
Proof.
  apply (upload_analysis_invariants elements elements_enumerates
           example_resume " - ").
  intros w Hw%elem_of_word_set. revert Hw.
  change (w ∉ word_set " - ").
  replace (word_set " - ") with (∅ : gset string) by (vm_compute; reflexivity).
  apply not_elem_of_empty.
Defined.

Lemma download_of_upload_witness :
  optimized_document (fst (upload_analysis elements example_resume example_job))
  = optimized_document example_resume
      ++ [Docx.Paragraph "--- OPTIMIZATION SUGGESTIONS ---";
          Docx.Paragraph
            ("Consider adding these keywords: "
               +:+ str_join ", "
                     (take 10 (missing_keywords
                                 (compare_with_job_description elements
                                    example_resume example_job))));
          Docx.Paragraph
            ("Your resume matches "
               +:+ format_1f (snd (upload_analysis elements example_resume
                                     example_job))
               +:+ "% of job requirements.")].
Proof.
  apply (download_of_upload elements elements_enumerates
           example_resume example_job).
  exists "sql". rewrite <- !elem_of_word_set. split.
  - apply (bool_decide_unpack _); vm_compute; exact I.
  - apply (bool_decide_unpack _); vm_compute; exact I.
Defined.
